(** * The multipath path prober (probe.c)

    A shallow embedding of [main] of probe.c as an interaction tree over
    the system calls and stdio calls it performs, an operational reading
    of such trees against a scripted operating system, and the properties
    of the probe-and-retry loop. *)

From Stdlib Require Import ZArith List String Ascii Bool Lia.
From ITree Require Import ITree ITreeFacts.
From Paco Require Import paco.
From Stdlib Require Import Morphisms.
Import ListNotations.
Import ITreeNotations.
Local Open Scope string_scope.
Local Open Scope list_scope.
Local Open Scope Z_scope.
Local Open Scope itree_scope.

(** ** Constants of the system headers *)

(** The [errno] values the program tests, with their Linux numbers
    (asm-generic/errno-base.h and errno.h). *)
Module Errno.
Definition EINTR : Z := 4.
Definition EAGAIN : Z := 11.
Definition ENOTCONN : Z := 107.
End Errno.
Import Errno.

(** [O_RDONLY] of fcntl.h. *)
Definition O_RDONLY : Z := 0.

(** The request-number encoding of linux/ioctl.h: direction in bits
    30-31, size in bits 16-29, type in bits 8-15, number in bits 0-7. *)
Definition _IOC_NONE : Z := 0.
Definition _IOC (dir type nr size : Z) : Z :=
  Z.lor (Z.lor (Z.lor (Z.shiftl dir 30) (Z.shiftl type 8)) (Z.shiftl nr 0))
        (Z.shiftl size 16).
Definition _IO (type nr : Z) : Z := _IOC _IOC_NONE type nr 0.

(** [DM_IOCTL] of linux/dm-ioctl.h. *)
Definition DM_IOCTL : Z := 253.

(** probe.c, lines 12-13. *)
Definition DM_MPATH_PROBE_PATHS_CMD : Z := 18.
Definition DM_MPATH_PROBE_PATHS : Z := _IO DM_IOCTL DM_MPATH_PROBE_PATHS_CMD.

(** ** The calls the program makes *)

Variant stream : Type := stdout | stderr.

(** One constructor per library call of [main].  [Errno] is the read of
    the thread's [errno]; [StrError] is the text that [%m] and [perror]
    put for it; [Exit] has no answer, the process is gone. *)
Variant sysE : Type -> Type :=
| Open (path : string) (flags : Z) : sysE Z
| Ioctl (fd : Z) (request : Z) : sysE Z
| Close (fd : Z) : sysE Z
| Errno : sysE Z
| StrError (e : Z) : sysE string
| Put (f : stream) (text : string) : sysE unit
| Exit (status : Z) : sysE void.

Definition exit {R} (status : Z) : itree sysE R :=
  v <- ITree.trigger (Exit status) ;; match v : void with end.

(** [printf] and [fprintf] with an already formatted text. *)
Definition printf (text : string) : itree sysE unit :=
  ITree.trigger (Put stdout text).
Definition fprintf (f : stream) (text : string) : itree sysE unit :=
  ITree.trigger (Put f text).

(** [perror(s)]: [s], a colon and a blank, the text of [errno], a newline,
    on the error stream. *)
Definition perror (s : string) : itree sysE unit :=
  e <- ITree.trigger Errno ;;
  m <- ITree.trigger (StrError e) ;;
  ITree.trigger (Put stderr (s ++ ": " ++ m ++ "
")%string).

(** The [%m] conversion of glibc's [printf] family: the text of [errno]. *)
Definition fmt_m : itree sysE string :=
  e <- ITree.trigger Errno ;; ITree.trigger (StrError e).

(** C's [a && b]: [b] is evaluated only when [a] holds. *)
Definition and_then (a b : itree sysE bool) : itree sysE bool :=
  x <- a ;; if x : bool then b else Ret false.

(** The test [errno != c]. *)
Definition errno_is_not (c : Z) : itree sysE bool :=
  e <- ITree.trigger Errno ;; Ret (negb (e =? c)).

(** ** The argument vector *)

(** [argv] holds [argc] strings and then a null pointer; [arg argv i] is
    what [%s] prints for [argv[i]], which for the null pointer is glibc's
    [(null)]. *)
Definition argc (argv : list string) : Z := Z.of_nat (List.length argv).
Definition arg (argv : list string) (i : nat) : string :=
  nth i argv "(null)".

(** ** The program *)

(** The body of the [while] of lines 29-37: one [ioctl], then either the
    loop is left ([inr]), or the process exits, or the loop goes round
    again ([inl]). *)
Definition probe_once (fd : Z) (_ : unit) : itree sysE (unit + unit) :=
  r <- ITree.trigger (Ioctl fd DM_MPATH_PROBE_PATHS) ;;
  if r <? 0 then
    e <- ITree.trigger Errno ;;
    if e =? ENOTCONN then
      printf "no usable paths
" ;;
      exit 1
    else
      other <- and_then (errno_is_not EINTR) (errno_is_not EAGAIN) ;;
      if other : bool then
        perror "ioctl failed" ;;
        exit 1
      else Ret (inl tt)
  else Ret (inr tt).

Definition probe_loop (fd : Z) : itree sysE unit :=
  ITree.iter (probe_once fd) tt.

(** Lines 28-39, with the device open as [fd]. *)
Definition probe (fd : Z) : itree sysE Z :=
  printf "probing
" ;;
  probe_loop fd ;;
  ITree.trigger (Close fd) ;;
  Ret 0.

Definition main (argv : list string) : itree sysE Z :=
  if negb (argc argv =? 2) then
    fprintf stderr ("Usage: " ++ arg argv 0 ++ " <dm-path>
")%string ;;
    exit 1
  else
    fd <- ITree.trigger (Open (arg argv 1) O_RDONLY) ;;
    if fd <? 0 then
      m <- fmt_m ;;
      fprintf stderr ("open of " ++ arg argv 1 ++ " failed: " ++ m ++ "
")%string ;;
      exit 1
    else probe fd.

(** ** The operating system, as a script *)

(** What a call hands back: its return value, and the number it leaves in
    [errno] when that value is negative. *)
Record sysret : Type := { ret : Z; err : Z }.

(** The script of one run: the answer to [open] by path and flags, the
    answer to the n-th [ioctl] of the run (counted from 0), the answer to
    [close], and the error texts of the C library. *)
Record world : Type := {
  open_res : string -> Z -> sysret;
  ioctl_res : nat -> sysret;
  close_res : sysret;
  strerror : Z -> string
}.

(** The calls [main] makes, in the order it makes them.  [PutA] is the
    stdio call that hands a text to a stream; when stdio writes the text
    to the file descriptor is its own affair and is not modelled. *)
Variant action : Type :=
| OpenA (path : string) (flags : Z) (r : Z)
| IoctlA (fd : Z) (request : Z) (r : Z)
| CloseA (fd : Z) (r : Z)
| PutA (f : stream) (text : string).

Record state : Type := { errno : Z; trace : list action }.

(** [errno] is 0 at program start. *)
Definition initial : state := {| errno := 0; trace := [] |}.

Definition is_ioctl (a : action) : bool :=
  match a with IoctlA _ _ _ => true | _ => false end.
Definition is_open (a : action) : bool :=
  match a with OpenA _ _ _ => true | _ => false end.
Definition is_close (a : action) : bool :=
  match a with CloseA _ _ => true | _ => false end.

(** Number of [ioctl] calls, of [open] calls, of [close] calls of a trace. *)
Definition ioctls (tr : list action) : nat := List.length (filter is_ioctl tr).
Definition opens (tr : list action) : nat := List.length (filter is_open tr).
Definition closes (tr : list action) : nat := List.length (filter is_close tr).

(** The lines put on stream [f], in order. *)
Fixpoint output (f : stream) (tr : list action) : list string :=
  match tr with
  | [] => []
  | PutA g text :: tr' =>
      match f, g with
      | stdout, stdout | stderr, stderr => text :: output f tr'
      | _, _ => output f tr'
      end
  | _ :: tr' => output f tr'
  end.

(** A system call returns: the action is logged, and [errno] is set when
    the call failed.  The stdio calls are taken to leave [errno] alone:
    the program reads [errno] right after the system call that set it,
    with no stdio call in between. *)
Definition returned (s : state) (r : sysret) (a : action) : state :=
  {| errno := if ret r <? 0 then err r else errno s;
     trace := trace s ++ [a] |}.

(** A text is put on a stream. *)
Definition put (f : stream) (text : string) (s : state) : state :=
  {| errno := errno s; trace := trace s ++ [PutA f text] |}.

(** The process after an event: going on with an answer, or gone. *)
Variant answer (X : Type) : Type :=
| Resume (s : state) (x : X)
| Halt (s : state) (status : Z).
Arguments Resume {X} s x.
Arguments Halt {X} s status.

Definition handle (w : world) {X} (e : sysE X) (s : state) : answer X :=
  match e in sysE X return answer X with
  | Open path flags =>
      let r := open_res w path flags in
      Resume (returned s r (OpenA path flags (ret r))) (ret r)
  | Ioctl fd request =>
      let r := ioctl_res w (ioctls (trace s)) in
      Resume (returned s r (IoctlA fd request (ret r))) (ret r)
  | Close fd =>
      let r := close_res w in
      Resume (returned s r (CloseA fd (ret r))) (ret r)
  | Errno => Resume s (errno s)
  | StrError e => Resume s (strerror w e)
  | Put f text => Resume (put f text s) tt
  | Exit status => Halt s status
  end.

(** ** Running a tree against a script *)

(** One step of a process: an event is answered by the script, a silent
    step is taken, or the process ends.  [main] returning [r] is the
    process ending with status [r]. *)
Definition step (w : world) (s : state) (t : itree sysE Z)
  : (state * itree sysE Z) + (state * Z) :=
  match observe t with
  | RetF r => inr (s, r)
  | TauF t' => inl (s, t')
  | VisF e k =>
      match handle w e s with
      | Resume s' x => inl (s', k x)
      | Halt s' status => inr (s', status)
      end
  end.

(** At most [n] steps: the state reached, and the exit status when the
    process has ended by then. *)
Fixpoint run (n : nat) (w : world) (s : state) (t : itree sysE Z)
  : state * option Z :=
  match n with
  | O => (s, None)
  | S n' =>
      match step w s t with
      | inl (s', t') => run n' w s' t'
      | inr (s', status) => (s', Some status)
      end
  end.

(** The process started as [main argv] ends in state [s] with exit
    status [status]. *)
Definition terminates (w : world) (argv : list string)
    (s : state) (status : Z) : Prop :=
  exists n, run n w initial (main argv) = (s, Some status).

(** The process never ends. *)
Definition diverges (w : world) (argv : list string) : Prop :=
  forall n, snd (run n w initial (main argv)) = None.

(** The [k]-th probe request (counted from 0) is issued at some point of
    the run. *)
Definition issued (w : world) (argv : list string) (k : nat) : Prop :=
  exists n, (k < ioctls (trace (fst (run n w initial (main argv)))))%nat.

(** The relational reading of [run], for proofs: [runs w s t s' c] when
    the process [t] started in [s] ends in [s'] with status [c], and
    [reaches w s t s'] when it passes through [s']. *)
Inductive runs (w : world) : state -> itree sysE Z -> state -> Z -> Prop :=
| runs_end s t s' c :
    step w s t = inr (s', c) -> runs w s t s' c
| runs_next s t s1 t1 s' c :
    step w s t = inl (s1, t1) -> runs w s1 t1 s' c -> runs w s t s' c.

Inductive reaches (w : world) : state -> itree sysE Z -> state -> Prop :=
| reaches_here s t : reaches w s t s
| reaches_end s t s' c :
    step w s t = inr (s', c) -> reaches w s t s'
| reaches_next s t s1 t1 s' :
    step w s t = inl (s1, t1) -> reaches w s1 t1 s' -> reaches w s t s'.

(** ** The answers of the probe request *)

(** The request succeeded: [ioctl] did not return a negative value. *)
Definition success (r : sysret) : Prop := 0 <= ret r.

(** The request failed with [ENOTCONN]. *)
Definition not_connected (r : sysret) : Prop :=
  ret r < 0 /\ err r = ENOTCONN.

(** The request failed with [EINTR] or [EAGAIN]. *)
Definition transient (r : sysret) : Prop :=
  ret r < 0 /\ (err r = EINTR \/ err r = EAGAIN).

(** The request failed with any other number. *)
Definition other_failure (r : sysret) : Prop :=
  ret r < 0 /\ err r <> ENOTCONN /\ err r <> EINTR /\ err r <> EAGAIN.

(** The state after the request has been issued once more at [s]. *)
Definition probed (w : world) (fd : Z) (s : state) : state :=
  let r := ioctl_res w (ioctls (trace s)) in
  returned s r (IoctlA fd DM_MPATH_PROBE_PATHS (ret r)).

(** The state after [close] at [s]. *)
Definition closed (w : world) (fd : Z) (s : state) : state :=
  returned s (close_res w) (CloseA fd (ret (close_res w))).

(** The state after the request has been issued [n] times from [s]. *)
Fixpoint retried (w : world) (fd : Z) (n : nat) (s : state) : state :=
  match n with
  | O => s
  | S n' => retried w fd n' (probed w fd s)
  end.

(** What is left of [probe fd] once [probing] is printed: the loop, then
    [close] and [return 0]. *)
Definition probing (fd : Z) : itree sysE Z :=
  probe_loop fd ;;
  ITree.trigger (Close fd) ;;
  Ret 0.

(** The state in which the loop is entered: the device is open as the
    answer [r] of [open] says and [probing] is printed. *)
Definition entered (dev : string) (r : sysret) : state :=
  put stdout "probing
" (returned initial r (OpenA dev O_RDONLY (ret r))).

(** ** Vocabulary of the statements *)

(** [open] of the device for reading gives a handle. *)
Definition opens_device (w : world) (dev : string) : Prop :=
  0 <= ret (open_res w dev O_RDONLY).

(** The handle [open] gives. *)
Definition handle_of (w : world) (dev : string) : Z :=
  ret (open_res w dev O_RDONLY).

(** The state in which the loop is entered when the device opens. *)
Definition start (w : world) (dev : string) : state :=
  entered dev (open_res w dev O_RDONLY).

(** The state in which the [n]-th request (counted from 0) has been
    answered, the ones before it having been retried. *)
Definition answered (w : world) (dev : string) (n : nat) : state :=
  probed w (handle_of w dev) (retried w (handle_of w dev) n (start w dev)).

(** The first [n] answers to the probe request are transient. *)
Definition transient_until (w : world) (n : nat) : Prop :=
  forall i, (i < n)%nat -> transient (ioctl_res w i).

(** The script [w] with another answer to [close]. *)
Definition with_close (w : world) (c : sysret) : world :=
  {| open_res := open_res w;
     ioctl_res := ioctl_res w;
     close_res := c;
     strerror := strerror w |}.

(** ** Scripts to run the program on *)

Definition ok (v : Z) : sysret := {| ret := v; err := 0 |}.
Definition failed (e : Z) : sysret := {| ret := -1; err := e |}.

(** The error texts of glibc for the numbers used below. *)
Definition strerror_glibc (e : Z) : string :=
  if e =? EINTR then "Interrupted system call"
  else if e =? EAGAIN then "Resource temporarily unavailable"
  else if e =? ENOTCONN then "Transport endpoint is not connected"
  else if e =? 2 then "No such file or directory"
  else if e =? 13 then "Permission denied"
  else "Unknown error".

(** [open] answers [o], the probe requests are answered by [answers] in
    turn and by [rest] from then on, [close] answers [c]. *)
Definition scripted (o : sysret) (answers : list sysret) (rest : sysret)
    (c : sysret) : world :=
  {| open_res := fun _ _ => o;
     ioctl_res := fun i => nth i answers rest;
     close_res := c;
     strerror := strerror_glibc |}.

Definition argv_dm0 : list string := ["probe"; "/dev/dm-0"].

(** The device is usable after two transient answers. *)
Definition w_usable : world :=
  scripted (ok 3) [failed EINTR; failed EAGAIN] (ok 0) (ok 0).

(** The device has no usable path. *)
Definition w_no_path : world :=
  scripted (ok 3) [] (failed ENOTCONN) (ok 0).

(** The device has no usable path, which shows at the second request. *)
Definition w_lost : world :=
  scripted (ok 3) [failed EAGAIN] (failed ENOTCONN) (ok 0).

(** The request is refused for good. *)
Definition w_denied : world :=
  scripted (ok 3) [failed EINTR] (failed 13) (ok 0).

(** The device node is missing. *)
Definition w_missing : world :=
  scripted (failed 2) [] (ok 0) (ok 0).

(** The request answers a positive number and [close] fails. *)
Definition w_odd : world :=
  scripted (ok 5) [] (ok 7) (failed 5).

(** ** Invariants of a run *)

(** One step of the proof that the run of [t] from [s] keeps [I] in every
    state it passes through and ends, if it ends, in a state and with a
    status that satisfy [F]; [r] stands for the rest of the run. *)
Definition keepsF (w : world) (I : state -> Prop) (F : state -> Z -> Prop)
    (r : state -> itree sysE Z -> Prop) (s : state) (t : itree sysE Z) : Prop :=
  I s /\
  match step w s t with
  | inl (s', t') => r s' t'
  | inr (s', c) => I s' /\ F s' c
  end.

(** The run of [t] from [s] keeps [I] and ends, if it ends, in [F]: the
    greatest fixed point of [keepsF], so that runs that never end are
    covered. *)
Definition keeps (w : world) (I : state -> Prop) (F : state -> Z -> Prop)
  : state -> itree sysE Z -> Prop :=
  paco2 (keepsF w I F) bot2.

(** The states of the process: at the start, after the usage message,
    after [open], after the message of a failed [open], at the head of
    the loop after [n] retries, with the [n]-th request answered, after
    [no usable paths], after the message of a failed request, and after
    [close]. *)
Inductive phase (w : world) (argv : list string) : state -> Prop :=
| ph_initial : phase w argv initial
| ph_usage :
    argc argv <> 2 ->
    phase w argv (put stderr ("Usage: " ++ arg argv 0 ++ " <dm-path>
")%string initial)
| ph_open :
    argc argv = 2 ->
    phase w argv (returned initial (open_res w (arg argv 1) O_RDONLY)
                    (OpenA (arg argv 1) O_RDONLY (handle_of w (arg argv 1))))
| ph_open_failed :
    argc argv = 2 ->
    ret (open_res w (arg argv 1) O_RDONLY) < 0 ->
    phase w argv
      (put stderr ("open of " ++ arg argv 1 ++ " failed: "
                   ++ strerror w (err (open_res w (arg argv 1) O_RDONLY)) ++ "
")%string
         (returned initial (open_res w (arg argv 1) O_RDONLY)
            (OpenA (arg argv 1) O_RDONLY (handle_of w (arg argv 1)))))
| ph_retrying n :
    argc argv = 2 -> opens_device w (arg argv 1) -> transient_until w n ->
    phase w argv
      (retried w (handle_of w (arg argv 1)) n (start w (arg argv 1)))
| ph_answered n :
    argc argv = 2 -> opens_device w (arg argv 1) -> transient_until w n ->
    phase w argv (answered w (arg argv 1) n)
| ph_no_path n :
    argc argv = 2 -> opens_device w (arg argv 1) -> transient_until w n ->
    not_connected (ioctl_res w n) ->
    phase w argv (put stdout "no usable paths
" (answered w (arg argv 1) n))
| ph_failed n :
    argc argv = 2 -> opens_device w (arg argv 1) -> transient_until w n ->
    other_failure (ioctl_res w n) ->
    phase w argv
      (put stderr ("ioctl failed: " ++ strerror w (err (ioctl_res w n)) ++ "
")%string (answered w (arg argv 1) n))
| ph_closed n :
    argc argv = 2 -> opens_device w (arg argv 1) -> transient_until w n ->
    success (ioctl_res w n) ->
    phase w argv
      (closed w (handle_of w (arg argv 1)) (answered w (arg argv 1) n)).

(** The ways the process ends, with the exit status of each. *)
Inductive ending (w : world) (argv : list string) : state -> Z -> Prop :=
| end_usage :
    argc argv <> 2 ->
    ending w argv (put stderr ("Usage: " ++ arg argv 0 ++ " <dm-path>
")%string initial) 1
| end_open_failed :
    argc argv = 2 ->
    ret (open_res w (arg argv 1) O_RDONLY) < 0 ->
    ending w argv
      (put stderr ("open of " ++ arg argv 1 ++ " failed: "
                   ++ strerror w (err (open_res w (arg argv 1) O_RDONLY)) ++ "
")%string
         (returned initial (open_res w (arg argv 1) O_RDONLY)
            (OpenA (arg argv 1) O_RDONLY (handle_of w (arg argv 1))))) 1
| end_no_path n :
    argc argv = 2 -> opens_device w (arg argv 1) -> transient_until w n ->
    not_connected (ioctl_res w n) ->
    ending w argv (put stdout "no usable paths
" (answered w (arg argv 1) n)) 1
| end_failed n :
    argc argv = 2 -> opens_device w (arg argv 1) -> transient_until w n ->
    other_failure (ioctl_res w n) ->
    ending w argv
      (put stderr ("ioctl failed: " ++ strerror w (err (ioctl_res w n)) ++ "
")%string (answered w (arg argv 1) n)) 1
| end_closed n :
    argc argv = 2 -> opens_device w (arg argv 1) -> transient_until w n ->
    success (ioctl_res w n) ->
    ending w argv
      (closed w (handle_of w (arg argv 1)) (answered w (arg argv 1) n)) 0.

(** What every call of the program looks like: [open] is of [argv[1]],
    for reading, and gives the handle; [ioctl] and [close] are on that
    handle, which is not negative; [ioctl] carries the probe request. *)
Definition disciplined (w : world) (argv : list string) (a : action) : Prop :=
  match a with
  | OpenA path flags r =>
      path = arg argv 1 /\ flags = O_RDONLY /\ r = handle_of w (arg argv 1)
  | IoctlA fd request _ =>
      fd = handle_of w (arg argv 1) /\ 0 <= fd /\
      request = DM_MPATH_PROBE_PATHS
  | CloseA fd _ => fd = handle_of w (arg argv 1) /\ 0 <= fd
  | PutA _ _ => True
  end.

(** The calls on the device in a trace: [open], [ioctl] and [close], in
    the order [main] makes them, the stdio calls left out. *)
Definition device_calls (tr : list action) : list action :=
  filter (fun a => is_open a || is_ioctl a || is_close a) tr.

(** The script [w] without its first [n] answers to the probe request. *)
Definition drop_answers (n : nat) (w : world) : world :=
  {| open_res := open_res w;
     ioctl_res := fun i => ioctl_res w (n + i);
     close_res := close_res w;
     strerror := strerror w |}.

(** * Properties *)

(** ** The two readings of a run agree *)

Section Semantics.
Variable w : world.

Lemma run_runs n : forall s t s' c,
  run n w s t = (s', Some c) -> runs w s t s' c.
Proof.
  induction n as [|n IH]; intros s t s' c H; simpl in H.
  - discriminate.
  - destruct (step w s t) as [[s1 t1]|[s1 c1]] eqn:E.
    + eapply runs_next; eauto.
    + inversion H; subst. now apply runs_end.
Qed.

Lemma runs_run s t s' c :
  runs w s t s' c -> exists n, run n w s t = (s', Some c).
Proof.
  induction 1 as [s t s' c E|s t s1 t1 s' c E _ [n IH]].
  - exists 1%nat. simpl. now rewrite E.
  - exists (S n). simpl. now rewrite E.
Qed.

Lemma run_reaches n : forall s t, reaches w s t (fst (run n w s t)).
Proof.
  induction n as [|n IH]; intros s t; simpl.
  - apply reaches_here.
  - destruct (step w s t) as [[s1 t1]|[s1 c1]] eqn:E.
    + eapply reaches_next; eauto.
    + eapply reaches_end; eauto.
Qed.

Lemma reaches_run s t s' :
  reaches w s t s' -> exists n, fst (run n w s t) = s'.
Proof.
  induction 1 as [s t|s t s' c E|s t s1 t1 s' E _ [n IH]].
  - now exists 0%nat.
  - exists 1%nat. simpl. now rewrite E.
  - exists (S n). simpl. now rewrite E.
Qed.

(** A run has one end. *)
Lemma runs_deterministic s t s1 c1 s2 c2 :
  runs w s t s1 c1 -> runs w s t s2 c2 -> s1 = s2 /\ c1 = c2.
Proof.
  intros H; revert s2 c2.
  induction H as [s t s' c E|s t sa ta s' c E _ IH]; intros s2 c2 H2;
    inversion H2; subst; try congruence.
  - split; congruence.
  - apply IH. congruence.
Qed.

(** Every state a run passes through is passed before its end: a run
    that has ended in [s'] has no state with a longer trace. *)
Lemma step_trace s t :
  match step w s t with
  | inl (s', _) | inr (s', _) => exists l, trace s' = trace s ++ l
  end.
Proof.
  unfold step. destruct (observe t) as [r|t'|X e k].
  - exists []. now rewrite app_nil_r.
  - exists []. now rewrite app_nil_r.
  - destruct e; simpl; eauto; exists []; now rewrite app_nil_r.
Qed.

Lemma reaches_trace s t s' :
  reaches w s t s' -> exists l, trace s' = trace s ++ l.
Proof.
  induction 1 as [s t|s t s' c E|s t s1 t1 s' E _ [l IH]].
  - exists []. now rewrite app_nil_r.
  - generalize (step_trace s t). now rewrite E.
  - generalize (step_trace s t). rewrite E. intros [l1 H1].
    exists (l1 ++ l). now rewrite IH, H1, app_assoc.
Qed.

Lemma reaches_before_end s t s' c s1 :
  runs w s t s' c -> reaches w s t s1 ->
  exists l, trace s' = trace s1 ++ l.
Proof.
  intros H; revert s1.
  induction H as [s t s' c E|s t sa ta s' c E H IH]; intros s1 R.
  - inversion R; subst; try congruence.
    + generalize (step_trace s1 t). now rewrite E.
    + exists []. rewrite app_nil_r. congruence.
  - inversion R; subst; try congruence.
    + destruct (IH sa (reaches_here _ _ _)) as [l Hl].
      generalize (step_trace s1 t). rewrite E. intros [l1 H1].
      exists (l1 ++ l). now rewrite Hl, H1, app_assoc.
    + apply IH. congruence.
Qed.

(** Trees that are equal as trees take the same steps. *)
Lemma step_eq_itree s t t' :
  t ≅ t' ->
  match step w s t, step w s t' with
  | inl (s1, t1), inl (s2, t2) => s1 = s2 /\ t1 ≅ t2
  | inr f1, inr f2 => f1 = f2
  | _, _ => False
  end.
Proof.
  intros H. punfold H. red in H. unfold step.
  destruct H; try discriminate; pclearbot.
  - now subst.
  - split; [reflexivity|assumption].
  - destruct (handle w e s); [split|]; auto. apply REL.
Qed.

Lemma runs_eq_itree s t t' s' c :
  t ≅ t' -> runs w s t s' c -> runs w s t' s' c.
Proof.
  intros E H; revert t' E.
  induction H as [s t s' c St|s t s1 t1 s' c St _ IH]; intros t' E;
    generalize (step_eq_itree s t t' E); rewrite St;
    destruct (step w s t') as [[s2 t2]|f2] eqn:St'; try easy.
  - intros <-. now apply runs_end.
  - intros [<- E1]. eapply runs_next; eauto.
Qed.

Lemma reaches_eq_itree s t t' s' :
  t ≅ t' -> reaches w s t s' -> reaches w s t' s'.
Proof.
  intros E H; revert t' E.
  induction H as [s t|s t s' c St|s t s1 t1 s' St _ IH]; intros t' E;
    [apply reaches_here| |];
    generalize (step_eq_itree s t t' E); rewrite St;
    destruct (step w s t') as [[s2 t2]|[s2 c2]] eqn:St'; try easy.
  - intros [= <- <-]. eapply reaches_end; eauto.
  - intros [<- E1]. eapply reaches_next; eauto.
Qed.

#[export] Instance runs_Proper :
  Proper (eq ==> eq_itree eq ==> eq ==> eq ==> iff) (runs w).
Proof.
  intros s ? <- t t' E s' ? <- c ? <-. split; apply runs_eq_itree.
  - exact E.
  - symmetry. exact E.
Qed.

#[export] Instance reaches_Proper :
  Proper (eq ==> eq_itree eq ==> eq ==> iff) (reaches w).
Proof.
  intros s ? <- t t' E s' ? <-. split; apply reaches_eq_itree.
  - exact E.
  - symmetry. exact E.
Qed.

(** How a run goes through the three kinds of node. *)
Lemma runs_Ret s r s' c : runs w s (Ret r) s' c <-> s' = s /\ c = r.
Proof.
  split.
  - inversion 1 as [? ? ? ? St|? ? ? ? ? ? St]; subst; cbn in St;
      inversion St; auto.
  - intros [-> ->]. now apply runs_end.
Qed.

Lemma runs_Tau s t s' c : runs w s (Tau t) s' c <-> runs w s t s' c.
Proof.
  split.
  - inversion 1 as [? ? ? ? St|? ? ? ? ? ? St]; subst; cbn in St;
      inversion St; subst; auto.
  - intros H. eapply runs_next; [reflexivity|exact H].
Qed.

Lemma runs_Vis {X} (e : sysE X) k s s' c :
  runs w s (Vis e k) s' c <->
  match handle w e s with
  | Resume s1 x => runs w s1 (k x) s' c
  | Halt s1 c1 => s' = s1 /\ c = c1
  end.
Proof.
  split.
  - inversion 1 as [? ? ? ? St|? ? ? ? ? ? St]; subst; cbn in St;
      destruct (handle w e s); inversion St; subst; auto.
  - intros H. destruct (handle w e s) eqn:E.
    + eapply runs_next; [|exact H]. cbn. now rewrite E.
    + destruct H as [-> ->]. apply runs_end. cbn. now rewrite E.
Qed.

Lemma reaches_Tau s t s' : reaches w s t s' -> reaches w s (Tau t) s'.
Proof. intros H. eapply reaches_next; [reflexivity|exact H]. Qed.

Lemma reaches_Vis {X} (e : sysE X) k s s1 x s' :
  handle w e s = Resume s1 x ->
  reaches w s1 (k x) s' -> reaches w s (Vis e k) s'.
Proof.
  intros E H. eapply reaches_next; [|exact H]. cbn. now rewrite E.
Qed.

End Semantics.
#[export] Existing Instance runs_Proper.
#[export] Existing Instance reaches_Proper.

(** ** One round of the loop *)

(** Nothing runs after [exit]. *)
Lemma bind_exit {R S} (c : Z) (k : R -> itree sysE S) :
  ITree.bind (exit c) k ≅ exit c.
Proof.
  unfold exit. rewrite bind_bind. rewrite 2 bind_trigger.
  apply eqit_Vis. intros [].
Qed.

Lemma runs_exit (w : world) s (c : Z) s' c' :
  runs w s (exit c) s' c' <-> s' = s /\ c' = c.
Proof.
  unfold exit. rewrite bind_trigger, runs_Vis. reflexivity.
Qed.

(** The test [r < 0] of a negative answer. *)
Ltac answer_neg H :=
  let H' := fresh in
  pose proof (proj2 (Z.ltb_lt _ _) H) as H'; rewrite ?H'; clear H'.

(** The comparisons of the three error numbers with each other. *)
Ltac compare_errno := cbn [Z.eqb EINTR EAGAIN ENOTCONN Pos.eqb negb].

Section Loop.
Variable w : world.
Variable fd : Z.

(** The loop followed by [close], laid out by the calls of one round. *)
Lemma probing_unfold :
  probing fd ≅
  Vis (Ioctl fd DM_MPATH_PROBE_PATHS) (fun r =>
    if r <? 0 then
      Vis Errno (fun e =>
        if e =? ENOTCONN then
          Vis (Put stdout "no usable paths
") (fun _ => exit 1)
        else
          Vis Errno (fun e1 =>
            if negb (e1 =? EINTR) then
              Vis Errno (fun e2 =>
                if negb (e2 =? EAGAIN) then
                  Vis Errno (fun e3 => Vis (StrError e3) (fun m =>
                    Vis (Put stderr ("ioctl failed" ++ ": " ++ m ++ "
")%string) (fun _ => exit 1)))
                else Tau (probing fd))
            else Tau (probing fd)))
    else Vis (Close fd) (fun _ => Ret 0)).
Proof.
  unfold probing, probe_loop. rewrite unfold_iter.
  unfold probe_once at 1. rewrite ?bind_bind, bind_trigger.
  apply eqit_Vis. intros r. destruct (r <? 0).
  - rewrite bind_bind, bind_trigger. apply eqit_Vis. intros e.
    destruct (e =? ENOTCONN).
    + unfold printf. rewrite ?bind_bind, bind_trigger.
      apply eqit_Vis. intros _.
      rewrite !bind_exit. reflexivity.
    + unfold and_then, errno_is_not. rewrite ?bind_bind, bind_trigger.
      apply eqit_Vis. intros e1. rewrite bind_ret_l.
      destruct (negb (e1 =? EINTR)).
      * rewrite ?bind_bind, bind_trigger. apply eqit_Vis. intros e2.
        rewrite bind_ret_l.
        destruct (negb (e2 =? EAGAIN)).
        -- unfold perror. rewrite ?bind_bind, bind_trigger.
           apply eqit_Vis. intros e3.
           rewrite ?bind_bind, bind_trigger. apply eqit_Vis. intros m.
           rewrite ?bind_bind, bind_trigger. apply eqit_Vis. intros _.
           rewrite !bind_exit. reflexivity.
        -- rewrite !bind_ret_l, bind_tau. reflexivity.
      * rewrite !bind_ret_l, bind_tau. reflexivity.
  - rewrite !bind_ret_l, bind_trigger. apply eqit_Vis. intros _. reflexivity.
Qed.

Lemma runs_probing_success s s' c :
  success (ioctl_res w (ioctls (trace s))) ->
  runs w s (probing fd) s' c <->
  s' = closed w fd (probed w fd s) /\ c = 0.
Proof.
  unfold success. intros H.
  rewrite probing_unfold, runs_Vis. cbn [handle].
  fold (probed w fd s).
  replace (_ <? 0) with false by (symmetry; apply Z.ltb_ge; exact H).
  rewrite runs_Vis. cbn [handle]. fold (closed w fd (probed w fd s)).
  apply runs_Ret.
Qed.

Lemma errno_probed s :
  ret (ioctl_res w (ioctls (trace s))) < 0 ->
  errno (probed w fd s) = err (ioctl_res w (ioctls (trace s))).
Proof.
  intros H. unfold probed, returned; simpl.
  now apply Z.ltb_lt in H; rewrite H.
Qed.

Lemma runs_probing_not_connected s s' c :
  not_connected (ioctl_res w (ioctls (trace s))) ->
  runs w s (probing fd) s' c <->
  s' = put stdout "no usable paths
" (probed w fd s) /\ c = 1.
Proof.
  intros [Hneg He].
  rewrite probing_unfold, runs_Vis. cbn [handle].
  fold (probed w fd s). answer_neg Hneg.
  rewrite runs_Vis. cbn [handle].
  rewrite (errno_probed s Hneg), He. compare_errno.
  rewrite runs_Vis. cbn [handle]. apply runs_exit.
Qed.

Lemma runs_probing_transient s s' c :
  transient (ioctl_res w (ioctls (trace s))) ->
  runs w s (probing fd) s' c <->
  runs w (probed w fd s) (probing fd) s' c.
Proof.
  intros [Hneg He].
  rewrite probing_unfold at 1. rewrite runs_Vis. cbn [handle].
  fold (probed w fd s). answer_neg Hneg.
  rewrite runs_Vis. cbn [handle].
  rewrite (errno_probed s Hneg).
  destruct He as [He|He]; rewrite He; compare_errno;
    rewrite runs_Vis; cbn [handle];
    rewrite (errno_probed s Hneg), He; compare_errno.
  - apply runs_Tau.
  - rewrite runs_Vis; cbn [handle].
    rewrite (errno_probed s Hneg), He; compare_errno.
    apply runs_Tau.
Qed.

Lemma runs_probing_other s s' c :
  other_failure (ioctl_res w (ioctls (trace s))) ->
  runs w s (probing fd) s' c <->
  s' = put stderr ("ioctl failed: "
                   ++ strerror w (err (ioctl_res w (ioctls (trace s))))
                   ++ "
")%string (probed w fd s) /\ c = 1.
Proof.
  intros (Hneg & H1 & H2 & H3).
  apply Z.eqb_neq in H1, H2, H3.
  rewrite probing_unfold, runs_Vis. cbn [handle].
  fold (probed w fd s). answer_neg Hneg.
  rewrite runs_Vis. cbn [handle].
  rewrite (errno_probed s Hneg), H1.
  rewrite runs_Vis. cbn [handle].
  rewrite (errno_probed s Hneg), H2. cbn [negb].
  rewrite runs_Vis. cbn [handle].
  rewrite (errno_probed s Hneg), H3. cbn [negb].
  rewrite runs_Vis. cbn [handle].
  rewrite runs_Vis. cbn [handle].
  rewrite runs_Vis. cbn [handle].
  rewrite (errno_probed s Hneg).
  apply runs_exit.
Qed.
End Loop.

(** ** Retrying *)

Section Retry.
Variable w : world.
Variable fd : Z.

Lemma ioctls_app tr l : ioctls (tr ++ l) = (ioctls tr + ioctls l)%nat.
Proof. unfold ioctls. now rewrite filter_app, length_app. Qed.

Lemma closes_app tr l : closes (tr ++ l) = (closes tr + closes l)%nat.
Proof. unfold closes. now rewrite filter_app, length_app. Qed.

Lemma opens_app tr l : opens (tr ++ l) = (opens tr + opens l)%nat.
Proof. unfold opens. now rewrite filter_app, length_app. Qed.

Lemma output_app f tr l : output f (tr ++ l) = output f tr ++ output f l.
Proof.
  induction tr as [|a tr IH]; simpl; [reflexivity|].
  destruct a as [| | |g text]; try exact IH.
  destruct f, g; simpl; now rewrite ?IH.
Qed.

Lemma ioctls_probed s :
  ioctls (trace (probed w fd s)) = S (ioctls (trace s)).
Proof. unfold probed, returned; simpl. rewrite ioctls_app. unfold ioctls; simpl. lia. Qed.

Lemma ioctls_retried n : forall s,
  ioctls (trace (retried w fd n s)) = (ioctls (trace s) + n)%nat.
Proof.
  induction n as [|n IH]; intros s; simpl.
  - lia.
  - rewrite IH, ioctls_probed. lia.
Qed.

Lemma closes_retried n : forall s,
  closes (trace (retried w fd n s)) = closes (trace s).
Proof.
  induction n as [|n IH]; intros s; simpl; [reflexivity|].
  rewrite IH. unfold probed, returned; simpl.
  rewrite closes_app. unfold closes; simpl. lia.
Qed.

Lemma opens_retried n : forall s,
  opens (trace (retried w fd n s)) = opens (trace s).
Proof.
  induction n as [|n IH]; intros s; simpl; [reflexivity|].
  rewrite IH. unfold probed, returned; simpl.
  rewrite opens_app. unfold opens; simpl. lia.
Qed.

Lemma output_retried f n : forall s,
  output f (trace (retried w fd n s)) = output f (trace s).
Proof.
  induction n as [|n IH]; intros s; simpl; [reflexivity|].
  rewrite IH. unfold probed, returned; simpl.
  rewrite output_app. simpl. now rewrite app_nil_r.
Qed.

(** As long as the answers are transient the loop is where it was, one
    request later. *)
Lemma runs_probing_retried n : forall s s' c,
  (forall i, (i < n)%nat ->
             transient (ioctl_res w (ioctls (trace s) + i))) ->
  runs w s (probing fd) s' c <->
  runs w (retried w fd n s) (probing fd) s' c.
Proof.
  induction n as [|n IH]; intros s s' c H; simpl; [reflexivity|].
  rewrite runs_probing_transient.
  - apply IH. intros i Hi. rewrite ioctls_probed.
    replace (S (ioctls (trace s)) + i)%nat
      with (ioctls (trace s) + S i)%nat by lia.
    apply H. lia.
  - specialize (H 0%nat). rewrite Nat.add_0_r in H. apply H. lia.
Qed.

Lemma reaches_probing_probed s : reaches w s (probing fd) (probed w fd s).
Proof.
  rewrite probing_unfold. eapply reaches_Vis; [reflexivity|].
  apply reaches_here.
Qed.

Lemma reaches_probing_transient s s' :
  transient (ioctl_res w (ioctls (trace s))) ->
  reaches w (probed w fd s) (probing fd) s' ->
  reaches w s (probing fd) s'.
Proof.
  intros [Hneg He] H.
  rewrite probing_unfold. eapply reaches_Vis; [reflexivity|].
  fold (probed w fd s). answer_neg Hneg.
  eapply reaches_Vis; [reflexivity|].
  rewrite (errno_probed w fd s Hneg).
  destruct He as [He|He]; rewrite He; compare_errno;
    (eapply reaches_Vis; [reflexivity|]);
    rewrite (errno_probed w fd s Hneg), He; compare_errno.
  - now apply reaches_Tau.
  - eapply reaches_Vis; [reflexivity|].
    rewrite (errno_probed w fd s Hneg), He; compare_errno.
    now apply reaches_Tau.
Qed.

Lemma reaches_probing_retried n : forall s,
  (forall i, (i < n)%nat ->
             transient (ioctl_res w (ioctls (trace s) + i))) ->
  reaches w s (probing fd) (probed w fd (retried w fd n s)).
Proof.
  induction n as [|n IH]; intros s H; simpl.
  - apply reaches_probing_probed.
  - apply reaches_probing_transient.
    + specialize (H 0%nat). rewrite Nat.add_0_r in H. apply H. lia.
    + apply IH. intros i Hi. rewrite ioctls_probed.
      replace (S (ioctls (trace s)) + i)%nat
        with (ioctls (trace s) + S i)%nat by lia.
      apply H. lia.
Qed.

End Retry.

(** ** The whole program *)

Section Main.
Variable w : world.

Lemma terminates_runs argv s c :
  terminates w argv s c <-> runs w initial (main argv) s c.
Proof.
  split.
  - intros [n H]. eapply run_runs; eauto.
  - apply runs_run.
Qed.

Lemma issued_reaches argv k :
  issued w argv k <->
  exists s, reaches w initial (main argv) s /\ (k < ioctls (trace s))%nat.
Proof.
  split.
  - intros [n H]. eexists; split; [apply run_reaches|exact H].
  - intros (s & R & H). destruct (reaches_run _ _ _ _ R) as [n <-].
    now exists n.
Qed.

Lemma diverges_runs argv :
  diverges w argv <-> forall s c, ~ runs w initial (main argv) s c.
Proof.
  split.
  - intros D s c R. destruct (runs_run _ _ _ _ _ R) as [n H].
    specialize (D n). rewrite H in D. discriminate.
  - intros H n.
    destruct (run n w initial (main argv)) as [s [c|]] eqn:E; [|reflexivity].
    exfalso. apply (H s c). eapply run_runs; eauto.
Qed.

(** Lines 19-22. *)
Lemma runs_main_usage argv s c :
  argc argv <> 2 ->
  runs w initial (main argv) s c <->
  s = put stderr ("Usage: " ++ arg argv 0 ++ " <dm-path>
")%string initial /\ c = 1.
Proof.
  intros H. unfold main. apply Z.eqb_neq in H. rewrite H. cbn [negb].
  unfold fprintf. rewrite bind_trigger, runs_Vis. cbn [handle].
  apply runs_exit.
Qed.

(** Lines 23-27. *)
Lemma runs_main_open_failed prog dev s c :
  ret (open_res w dev O_RDONLY) < 0 ->
  runs w initial (main [prog; dev]) s c <->
  s = put stderr ("open of " ++ dev ++ " failed: "
                  ++ strerror w (err (open_res w dev O_RDONLY)) ++ "
")%string (returned initial (open_res w dev O_RDONLY)
           (OpenA dev O_RDONLY (handle_of w dev))) /\ c = 1.
Proof.
  intros H. unfold main, handle_of.
  cbn [argc List.length Z.of_nat Pos.of_succ_nat Pos.succ Z.eqb Pos.eqb
       negb arg nth].
  rewrite bind_trigger, runs_Vis. cbn [handle].
  answer_neg H. unfold fmt_m, fprintf.
  rewrite !bind_bind, bind_trigger, runs_Vis. cbn [handle].
  rewrite bind_trigger, runs_Vis. cbn [handle].
  rewrite bind_trigger, runs_Vis. cbn [handle].
  replace (errno (returned initial _ _))
    with (err (open_res w dev O_RDONLY)).
  - apply runs_exit.
  - unfold returned; simpl. now apply Z.ltb_lt in H; rewrite H.
Qed.

Lemma probe_unfold fd :
  probe fd ≅ Vis (Put stdout "probing
") (fun _ => probing fd).
Proof. unfold probe, printf. rewrite bind_trigger. reflexivity. Qed.

(** Lines 23-28 when the device opens. *)
Lemma runs_main_opened prog dev s c :
  opens_device w dev ->
  runs w initial (main [prog; dev]) s c <->
  runs w (start w dev) (probing (handle_of w dev)) s c.
Proof.
  unfold opens_device, start, handle_of. intros H. unfold main.
  cbn [argc List.length Z.of_nat Pos.of_succ_nat Pos.succ Z.eqb Pos.eqb
       negb arg nth].
  rewrite bind_trigger, runs_Vis. cbn [handle].
  replace (_ <? 0) with false by (symmetry; now apply Z.ltb_ge).
  rewrite probe_unfold, runs_Vis. cbn [handle]. reflexivity.
Qed.

Lemma reaches_main_opened prog dev s :
  opens_device w dev ->
  reaches w (start w dev) (probing (handle_of w dev)) s ->
  reaches w initial (main [prog; dev]) s.
Proof.
  unfold opens_device, start, handle_of. intros H R. unfold main.
  cbn [argc List.length Z.of_nat Pos.of_succ_nat Pos.succ Z.eqb Pos.eqb
       negb arg nth].
  rewrite bind_trigger. eapply reaches_Vis; [reflexivity|].
  replace (_ <? 0) with false by (symmetry; now apply Z.ltb_ge).
  rewrite probe_unfold. eapply reaches_Vis; [reflexivity|]. exact R.
Qed.

End Main.

(** ** Sorting the answers *)

Lemma transient_dec r : {transient r} + {~ transient r}.
Proof.
  unfold transient.
  destruct (Z_lt_dec (ret r) 0), (Z.eq_dec (err r) EINTR),
    (Z.eq_dec (err r) EAGAIN); (left; tauto) || (right; tauto).
Qed.

Lemma answer_cases r :
  success r \/ not_connected r \/ transient r \/ other_failure r.
Proof.
  unfold success, not_connected, transient, other_failure.
  destruct (Z_lt_dec (ret r) 0), (Z.eq_dec (err r) EINTR),
    (Z.eq_dec (err r) EAGAIN), (Z.eq_dec (err r) ENOTCONN);
    try tauto; lia.
Qed.

(** Up to any index, either every answer is transient or there is a first
    one that is not. *)
Lemma first_lasting (rs : nat -> sysret) (k : nat) :
  (forall i, (i < k)%nat -> transient (rs i)) \/
  exists m, (m < k)%nat /\ ~ transient (rs m) /\
            forall i, (i < m)%nat -> transient (rs i).
Proof.
  induction k as [|k [IH|(m & Hm & Hn & Hall)]].
  - left. intros i Hi. lia.
  - destruct (transient_dec (rs k)) as [T|T].
    + left. intros i Hi. destruct (Nat.eq_dec i k) as [->|]; [exact T|].
      apply IH. lia.
    + right. exists k. auto.
  - right. exists m. split; [lia|auto].
Qed.

(** ** Where a run ends *)

Create Rewrite HintDb trace.
#[local] Hint Rewrite ioctls_app closes_app opens_app output_app
  ioctls_retried closes_retried opens_retried output_retried : trace.

(** Counts and outputs of the states a run is made of. *)
Ltac tally :=
  unfold answered, start, closed, probed, put, returned, entered;
  cbn [trace];
  autorewrite with trace; unfold ioctls, closes, opens; simpl;
  solve [reflexivity | lia].

Section Outcomes.
Variable w : world.
Variables prog dev : string.
Hypothesis Hopen : opens_device w dev.

Lemma transient_from_start n :
  transient_until w n ->
  forall i, (i < n)%nat ->
    transient (ioctl_res w (ioctls (trace (start w dev)) + i)).
Proof. intros H i Hi. now apply H. Qed.

Lemma ioctls_at_retry n :
  ioctls (trace (retried w (handle_of w dev) n (start w dev))) = n.
Proof. now rewrite ioctls_retried. Qed.

Lemma terminates_success n :
  transient_until w n -> success (ioctl_res w n) ->
  terminates w [prog; dev]
    (closed w (handle_of w dev) (answered w dev n)) 0.
Proof.
  intros T A. apply terminates_runs.
  apply runs_main_opened; [exact Hopen|].
  apply (runs_probing_retried w (handle_of w dev) n);
    [now apply transient_from_start|].
  apply runs_probing_success; [now rewrite ioctls_at_retry|].
  split; reflexivity.
Qed.

Lemma terminates_not_connected n :
  transient_until w n -> not_connected (ioctl_res w n) ->
  terminates w [prog; dev]
    (put stdout "no usable paths
" (answered w dev n)) 1.
Proof.
  intros T A. apply terminates_runs.
  apply runs_main_opened; [exact Hopen|].
  apply (runs_probing_retried w (handle_of w dev) n);
    [now apply transient_from_start|].
  apply runs_probing_not_connected; [now rewrite ioctls_at_retry|].
  split; reflexivity.
Qed.

Lemma terminates_other n :
  transient_until w n -> other_failure (ioctl_res w n) ->
  terminates w [prog; dev]
    (put stderr ("ioctl failed: " ++ strerror w (err (ioctl_res w n)) ++ "
")%string (answered w dev n)) 1.
Proof.
  intros T A. apply terminates_runs.
  apply runs_main_opened; [exact Hopen|].
  apply (runs_probing_retried w (handle_of w dev) n);
    [now apply transient_from_start|].
  apply runs_probing_other; [now rewrite ioctls_at_retry|].
  rewrite ioctls_at_retry. split; reflexivity.
Qed.

(** An answer that is not transient ends the run, with no further
    request. *)
Lemma terminates_at n :
  transient_until w n -> ~ transient (ioctl_res w n) ->
  exists s c, terminates w [prog; dev] s c /\ ioctls (trace s) = S n.
Proof.
  intros T N.
  destruct (answer_cases (ioctl_res w n)) as [A|[A|[A|A]]].
  - do 2 eexists. split; [apply (terminates_success n); assumption|]. tally.
  - do 2 eexists. split; [apply (terminates_not_connected n); assumption|]. tally.
  - contradiction.
  - do 2 eexists. split; [apply (terminates_other n); assumption|]. tally.
Qed.

Lemma terminates_deterministic argv s1 c1 s2 c2 :
  terminates w argv s1 c1 -> terminates w argv s2 c2 ->
  s1 = s2 /\ c1 = c2.
Proof.
  rewrite !terminates_runs. apply runs_deterministic.
Qed.

(** The requests that are issued: those before which every answer was
    transient. *)
Lemma issued_transient_until k :
  issued w [prog; dev] k <-> transient_until w k.
Proof.
  split.
  - intros I. destruct (first_lasting (ioctl_res w) k) as [H|(m & Hm & N & T)];
      [exact H|exfalso].
    destruct (terminates_at m T N) as (s & c & E & Hs).
    apply issued_reaches in I. destruct I as (s1 & R & Hk).
    apply terminates_runs in E.
    destruct (reaches_before_end _ _ _ _ _ _ E R) as [l Hl].
    rewrite Hl, ioctls_app in Hs. lia.
  - intros T. apply issued_reaches. exists (answered w dev k). split.
    + apply reaches_main_opened; [exact Hopen|].
      apply reaches_probing_retried. now apply transient_from_start.
    + tally.
Qed.

End Outcomes.

Lemma lasting_cases r :
  success r \/ not_connected r \/ other_failure r <-> ~ transient r.
Proof.
  unfold success, not_connected, transient, other_failure,
    ENOTCONN, EINTR, EAGAIN.
  split.
  - intros [H|[[H1 H2]|(H1 & H2 & H3 & H4)]] [T1 T2]; lia.
  - intros N. destruct (answer_cases r) as [H|[H|[H|H]]]; auto.
    contradiction.
Qed.

(** Facts about a given script, by running it. *)
Ltac cases_below i :=
  first [ solve [exfalso; lia] | destruct i as [|i]; [|cases_below i] ].

Ltac by_script :=
  repeat match goal with
  | |- _ /\ _ => split
  | |- transient_until _ _ =>
      let i := fresh "i" in let Hi := fresh "Hi" in
      intros i Hi; cases_below i
  | |- (_ < _)%Z => reflexivity
  | |- (_ <= _)%Z => apply Z.leb_le; reflexivity
  | |- @eq Z _ _ => reflexivity
  | |- ~ (@eq Z _ _) => apply Z.eqb_neq; reflexivity
  | |- _ \/ _ => (left; reflexivity) || (right; reflexivity)
  | |- _ => progress unfold opens_device, success, not_connected, transient,
                     other_failure
  end.

(** * The states of a run *)

(** ** Proof rules for invariants *)
Lemma keepsF_mon w I F : monotone2 (keepsF w I F).
Proof.
  intros s t r r' [H1 H2] LE. split; [exact H1|].
  destruct (step w s t) as [[s' t']|[s' c]]; auto.
Qed.
#[local] Hint Resolve keepsF_mon : paco.

Lemma keeps_reaches w I F s t s' :
  keeps w I F s t -> reaches w s t s' -> I s'.
Proof.
  intros K R. revert K.
  induction R as [s t|s t s' c St|s t s1 t1 s' St _ IH]; intros K;
    punfold K; destruct K as [Hs K]; rewrite ?St in K.
  - exact Hs.
  - apply K.
  - apply IH. now pclearbot.
Qed.

Lemma keeps_runs w I F s t s' c :
  keeps w I F s t -> runs w s t s' c -> F s' c.
Proof.
  intros K R. revert K.
  induction R as [s t s' c St|s t s1 t1 s' c St _ IH]; intros K;
    punfold K; destruct K as [Hs K]; rewrite St in K.
  - apply K.
  - apply IH. now pclearbot.
Qed.


Section Rules.
Variable w : world.
Variable I : state -> Prop.
Variable F : state -> Z -> Prop.
Variable r : state -> itree sysE Z -> Prop.

Lemma keeps_Ret s t x :
  t ≅ Ret x -> I s -> F s x -> paco2 (keepsF w I F) r s t.
Proof.
  intros E Hs Hf. pfold. split; [exact Hs|].
  generalize (step_eq_itree w s t (Ret x) E).
  change (step w s (Ret x)) with (@inr (state * itree sysE Z) _ (s, x)).
  destruct (step w s t) as [[s2 t2]|[s2 c2]]; [contradiction|].
  intros [= -> ->]. auto.
Qed.

Lemma keeps_Tau s t t0 :
  t ≅ Tau t0 -> I s ->
  (forall t1, t1 ≅ t0 -> upaco2 (keepsF w I F) r s t1) ->
  paco2 (keepsF w I F) r s t.
Proof.
  intros E Hs K. pfold. split; [exact Hs|].
  generalize (step_eq_itree w s t (Tau t0) E).
  change (step w s (Tau t0)) with (@inl _ (state * Z) (s, t0)).
  destruct (step w s t) as [[s2 t2]|[s2 c2]]; [|contradiction].
  intros [-> E1]. now apply K.
Qed.

Lemma keeps_Vis {X} (e : sysE X) k s t :
  t ≅ Vis e k -> I s ->
  match handle w e s with
  | Resume s1 x => forall t1, t1 ≅ k x -> upaco2 (keepsF w I F) r s1 t1
  | Halt s1 c => I s1 /\ F s1 c
  end ->
  paco2 (keepsF w I F) r s t.
Proof.
  intros E Hs K. pfold. split; [exact Hs|].
  generalize (step_eq_itree w s t (Vis e k) E).
  change (step w s (Vis e k))
    with (match handle w e s with
          | Resume s' x => inl (s', k x)
          | Halt s' c => @inr (state * itree sysE Z) _ (s', c)
          end).
  destruct (handle w e s) as [s1 x|s1 c];
    destruct (step w s t) as [[s2 t2]|[s2 c2]]; try contradiction.
  - intros [-> E1]. now apply K.
  - intros [= -> ->]. exact K.
Qed.

End Rules.

Section Phases.
Variable w : world.
Variable argv : list string.
Hypothesis A : argc argv = 2.
Hypothesis O : opens_device w (arg argv 1).

Lemma transient_next n :
  transient_until w n -> transient (ioctl_res w n) ->
  transient_until w (S n).
Proof.
  intros T H i Hi. destruct (Nat.eq_dec i n) as [->|]; [exact H|].
  apply T. lia.
Qed.

Lemma retried_S fd n : forall s,
  retried w fd (S n) s = probed w fd (retried w fd n s).
Proof.
  induction n as [|n IH]; intros s; [reflexivity|].
  change (retried w fd (S (S n)) s) with (retried w fd (S n) (probed w fd s)).
  now rewrite IH.
Qed.

Lemma exit_Vis {R} (c : Z) :
  @exit R c ≅ Vis (Exit c) (fun v : void => match v with end).
Proof. unfold exit. now rewrite bind_trigger. Qed.

Lemma probing_keeps n t :
  transient_until w n ->
  t ≅ probing (handle_of w (arg argv 1)) ->
  keeps w (phase w argv) (ending w argv)
    (retried w (handle_of w (arg argv 1)) n (start w (arg argv 1))) t.
Proof.
  revert n t. pcofix CIH. intros n t T Et.
  rewrite probing_unfold in Et.
  eapply keeps_Vis; [exact Et|now apply ph_retrying|]. clear t Et.
  cbn [handle]. fold (probed w (handle_of w (arg argv 1))
    (retried w (handle_of w (arg argv 1)) n (start w (arg argv 1)))).
  fold (answered w (arg argv 1) n).
  rewrite ioctls_at_retry. intros t Et.
  assert (P : phase w argv (answered w (arg argv 1) n))
    by now apply ph_answered.
  assert (E : ret (ioctl_res w n) < 0 ->
              errno (answered w (arg argv 1) n) = err (ioctl_res w n)).
  { intros H. unfold answered.
    rewrite errno_probed; rewrite ioctls_at_retry; auto. }
  destruct (Z.ltb_spec (ret (ioctl_res w n)) 0) as [Neg|Pos].
  - left. eapply keeps_Vis; [exact Et|exact P|]. clear t Et.
    cbn [handle]. rewrite (E Neg). intros t Et.
    destruct (Z.eqb_spec (err (ioctl_res w n)) ENOTCONN) as [NC|NC].
    + assert (Q : not_connected (ioctl_res w n)) by (split; assumption).
      left. eapply keeps_Vis; [exact Et|exact P|]. clear t Et.
      cbn [handle]. intros t Et. rewrite exit_Vis in Et.
      left. eapply keeps_Vis; [exact Et|now apply ph_no_path|].
      cbn [handle]. split; [now apply ph_no_path|now apply end_no_path].
    + left. eapply keeps_Vis; [exact Et|exact P|]. clear t Et.
      cbn [handle]. rewrite (E Neg). intros t Et.
      destruct (Z.eqb_spec (err (ioctl_res w n)) EINTR) as [EI|EI];
        cbn [negb] in Et.
      * left. eapply keeps_Tau; [exact Et|exact P|]. clear t Et.
        intros t Et. right. unfold answered. rewrite <- retried_S.
        apply (CIH (S n)); [|exact Et].
        apply transient_next; [exact T|]. split; auto.
      * left. eapply keeps_Vis; [exact Et|exact P|]. clear t Et.
        cbn [handle]. rewrite (E Neg). intros t Et.
        destruct (Z.eqb_spec (err (ioctl_res w n)) EAGAIN) as [EA|EA];
          cbn [negb] in Et.
        -- left. eapply keeps_Tau; [exact Et|exact P|]. clear t Et.
           intros t Et. right. unfold answered. rewrite <- retried_S.
           apply (CIH (S n)); [|exact Et].
           apply transient_next; [exact T|]. split; auto.
        -- assert (Q : other_failure (ioctl_res w n))
             by (repeat split; assumption).
           left. eapply keeps_Vis; [exact Et|exact P|]. clear t Et.
           cbn [handle]. rewrite (E Neg). intros t Et.
           left. eapply keeps_Vis; [exact Et|exact P|]. clear t Et.
           cbn [handle]. intros t Et.
           left. eapply keeps_Vis; [exact Et|exact P|]. clear t Et.
           cbn [handle]. intros t Et. rewrite exit_Vis in Et.
           left. eapply keeps_Vis; [exact Et|now apply ph_failed|].
           cbn [handle]. split; [now apply ph_failed|now apply end_failed].
  - assert (Q : success (ioctl_res w n)) by exact Pos.
    left. eapply keeps_Vis; [exact Et|exact P|]. clear t Et.
    cbn [handle]. intros t Et.
    left. eapply keeps_Ret; [exact Et|now apply ph_closed|now apply end_closed].
Qed.
End Phases.


Section Program.
Variable w : world.
Variable argv : list string.

Lemma main_usage_unfold :
  argc argv <> 2 ->
  main argv ≅
  Vis (Put stderr ("Usage: " ++ arg argv 0 ++ " <dm-path>
")%string) (fun _ => exit 1).
Proof.
  intros H. unfold main. apply Z.eqb_neq in H. rewrite H. cbn [negb].
  unfold fprintf. rewrite bind_trigger. reflexivity.
Qed.

Lemma main_open_unfold :
  argc argv = 2 ->
  main argv ≅
  Vis (Open (arg argv 1) O_RDONLY) (fun fd =>
    if fd <? 0 then
      Vis Errno (fun e => Vis (StrError e) (fun m =>
        Vis (Put stderr ("open of " ++ arg argv 1 ++ " failed: " ++ m ++ "
")%string) (fun _ => exit 1)))
    else Vis (Put stdout "probing
") (fun _ => probing fd)).
Proof.
  intros H. unfold main. apply Z.eqb_eq in H. rewrite H. cbn [negb].
  rewrite bind_trigger. apply eqit_Vis. intros fd. destruct (fd <? 0).
  - unfold fmt_m, fprintf. rewrite ?bind_bind, bind_trigger.
    apply eqit_Vis. intros e. rewrite bind_trigger.
    apply eqit_Vis. intros m. rewrite bind_trigger. reflexivity.
  - apply probe_unfold.
Qed.

(** At every point of a run the process is in one of the phases, and a
    run that ends has ended in one of the endings. *)
Lemma main_keeps :
  keeps w (phase w argv) (ending w argv) initial (main argv).
Proof.
  destruct (Z.eq_dec (argc argv) 2) as [A|A].
  - eapply keeps_Vis; [now apply main_open_unfold|apply ph_initial|].
    cbn [handle]. fold (handle_of w (arg argv 1)). intros t Et.
    assert (P : phase w argv
                  (returned initial (open_res w (arg argv 1) O_RDONLY)
                     (OpenA (arg argv 1) O_RDONLY (handle_of w (arg argv 1)))))
      by now apply ph_open.
    destruct (Z.ltb_spec (handle_of w (arg argv 1)) 0) as [Neg|Pos].
    + assert (E : errno (returned initial (open_res w (arg argv 1) O_RDONLY)
                     (OpenA (arg argv 1) O_RDONLY (handle_of w (arg argv 1))))
                  = err (open_res w (arg argv 1) O_RDONLY)).
      { unfold returned; simpl. unfold handle_of in Neg.
        now apply Z.ltb_lt in Neg; rewrite Neg. }
      left. eapply keeps_Vis; [exact Et|exact P|]. clear t Et.
      cbn [handle]. rewrite E. intros t Et.
      left. eapply keeps_Vis; [exact Et|exact P|]. clear t Et.
      cbn [handle]. intros t Et.
      left. eapply keeps_Vis; [exact Et|exact P|]. clear t Et.
      cbn [handle]. intros t Et. rewrite exit_Vis in Et.
      left. eapply keeps_Vis; [exact Et|now apply ph_open_failed|].
      cbn [handle].
      split; [now apply ph_open_failed|now apply end_open_failed].
    + left. eapply keeps_Vis; [exact Et|exact P|]. clear t Et.
      cbn [handle]. intros t Et. left.
      apply (probing_keeps w argv A Pos 0 t); [|exact Et].
      intros i Hi. lia.
  - eapply keeps_Vis; [now apply main_usage_unfold|apply ph_initial|].
    cbn [handle]. intros t Et. rewrite exit_Vis in Et.
    left. eapply keeps_Vis; [exact Et|now apply ph_usage|].
    cbn [handle]. split; [now apply ph_usage|now apply end_usage].
Qed.

Lemma run_phase n : phase w argv (fst (run n w initial (main argv))).
Proof.
  eapply keeps_reaches; [apply main_keeps|apply run_reaches].
Qed.

Lemma terminates_ending s c :
  terminates w argv s c -> ending w argv s c.
Proof.
  intros H. apply terminates_runs in H.
  eapply keeps_runs; [apply main_keeps|exact H].
Qed.

End Program.

(** ** What holds all along a run *)

Section Along.
Variable w : world.
Variable argv : list string.

Lemma argc_two :
  argc argv = 2 -> exists prog dev, argv = [prog; dev].
Proof.
  unfold argc. destruct argv as [|a [|b [|c l]]]; simpl; try lia.
  intros _. now exists a, b.
Qed.

Lemma retried_Forall (P : action -> Prop) fd n : forall s,
  (forall x, P (IoctlA fd DM_MPATH_PROBE_PATHS x)) ->
  Forall P (trace s) -> Forall P (trace (retried w fd n s)).
Proof.
  induction n as [|n IH]; intros s Hp Hs; [exact Hs|].
  simpl. apply IH; [exact Hp|].
  unfold probed, returned; cbn [trace]. apply Forall_app. split; auto.
Qed.

Lemma retried_extends fd n : forall s,
  exists l, trace (retried w fd n s) = trace s ++ l.
Proof.
  induction n as [|n IH]; intros s.
  - exists []. now rewrite app_nil_r.
  - destruct (IH (probed w fd s)) as [l Hl]. simpl. rewrite Hl.
    unfold probed, returned; cbn [trace]. rewrite <- app_assoc. eauto.
Qed.

Lemma phase_disciplined s :
  phase w argv s -> Forall (disciplined w argv) (trace s).
Proof.
  assert (R : forall n, opens_device w (arg argv 1) ->
            Forall (disciplined w argv)
              (trace (retried w (handle_of w (arg argv 1)) n
                        (start w (arg argv 1))))).
  { intros n O. apply retried_Forall.
    - intros x. repeat split. exact O.
    - repeat constructor. }
  assert (Q : forall n, opens_device w (arg argv 1) ->
            Forall (disciplined w argv) (trace (answered w (arg argv 1) n))).
  { intros n O. unfold answered, probed, returned; cbn [trace].
    apply Forall_app. split; [now apply R|].
    repeat constructor. exact O. }
  intros [ | A | A | A Neg | n A O T | n A O T | n A O T N | n A O T N
         | n A O T N ];
    unfold closed, put, returned; cbn [trace];
    rewrite ?Forall_app; repeat split; auto; repeat constructor; auto.
Qed.

Lemma phase_opens s : phase w argv s -> (opens (trace s) <= 1)%nat.
Proof.
  intros [ | A | A | A Neg | n A O T | n A O T | n A O T N | n A O T N
         | n A O T N ];
    unfold answered, start, closed, probed, put, returned, entered;
    cbn [trace]; autorewrite with trace; unfold opens; simpl; lia.
Qed.

Lemma phase_closes s :
  phase w argv s ->
  closes (trace s) = 0%nat \/
  exists tr r, trace s = tr ++ [CloseA (handle_of w (arg argv 1)) r] /\
               closes tr = 0%nat.
Proof.
  intros [ | A | A | A Neg | n A O T | n A O T | n A O T N | n A O T N
         | n A O T N ]; try (left; tally).
  right. exists (trace (answered w (arg argv 1) n)), (ret (close_res w)).
  split; [reflexivity|tally].
Qed.

Lemma closes_device_calls tr : closes (device_calls tr) = closes tr.
Proof.
  unfold closes, device_calls.
  induction tr as [|a tr IH]; [reflexivity|].
  destruct a; simpl; auto.
Qed.

(** A close comes after a probe request. *)
Lemma phase_closed_probed s :
  phase w argv s ->
  closes (trace s) = 0%nat \/ (0 < ioctls (trace s))%nat.
Proof.
  intros [ | A | A | A Neg | n A O T | n A O T | n A O T N | n A O T N
         | n A O T N ]; try (left; tally).
  right. unfold closed, answered, probed, returned; cbn [trace].
  rewrite !ioctls_app. unfold ioctls at 2; simpl. lia.
Qed.

Lemma phase_announced s :
  phase w argv s -> (0 < ioctls (trace s))%nat ->
  exists rest,
    trace s = OpenA (arg argv 1) O_RDONLY (handle_of w (arg argv 1))
              :: PutA stdout "probing
" :: rest.
Proof.
  assert (R : forall n, exists l,
            trace (retried w (handle_of w (arg argv 1)) n
                     (start w (arg argv 1)))
            = OpenA (arg argv 1) O_RDONLY (handle_of w (arg argv 1))
              :: PutA stdout "probing
" :: l).
  { intros n.
    destruct (retried_extends (handle_of w (arg argv 1)) n
                (start w (arg argv 1))) as [l Hl].
    exists l. rewrite Hl. reflexivity. }
  intros [ | A | A | A Neg | n A O T | n A O T | n A O T N | n A O T N
         | n A O T N ] H;
    try (exfalso; revert H; unfold ioctls; simpl; lia);
    destruct (R n) as [l Hl];
    unfold answered, closed, probed, put, returned; cbn [trace];
    rewrite Hl; simpl; eauto.
Qed.

End Along.

(** * The properties of the specification *)

(** C1, as amended: after any number of transient answers, when the probe
    request answers "not connected" the program ends with exit status 1
    and has never called [close]; when it answers success the program ends
    with exit status 0 and has called [close] once; and [close] is called
    on that outcome only: whatever the arguments, a run that ends having
    called [close] has called it once, after a probe request that
    succeeded, and ends with exit status 0. *)
Theorem close_only_after_success (w : world) (prog dev : string) (n : nat) :
  opens_device w dev ->
  transient_until w n ->
  (not_connected (ioctl_res w n) ->
   exists s, terminates w [prog; dev] s 1 /\ closes (trace s) = 0%nat) /\
  (success (ioctl_res w n) ->
   exists s, terminates w [prog; dev] s 0 /\ closes (trace s) = 1%nat) /\
  (forall argv s c,
     terminates w argv s c -> closes (trace s) <> 0%nat ->
     c = 0 /\ closes (trace s) = 1%nat /\
     argc argv = 2 /\ opens_device w (arg argv 1) /\
     exists k, transient_until w k /\ success (ioctl_res w k) /\
               ioctls (trace s) = S k).
Proof.
  intros O T. split; [|split].
  - intros A. eexists. split.
    + apply (terminates_not_connected w prog dev O n T A).
    + tally.
  - intros A. eexists. split.
    + apply (terminates_success w prog dev O n T A).
    + tally.
  - intros argv s c E C. apply terminates_ending in E.
    destruct E as [A | A Neg | k A O' T' N | k A O' T' N | k A O' T' N].
    + exfalso. apply C. reflexivity.
    + exfalso. apply C. reflexivity.
    + exfalso. apply C. tally.
    + exfalso. apply C. tally.
    + split; [reflexivity|]. split; [tally|]. split; [exact A|].
      split; [exact O'|]. exists k. split; [exact T'|].
      split; [exact N|tally].
Qed.

Lemma close_only_after_success_witness :
  (exists s, terminates w_no_path argv_dm0 s 1 /\ closes (trace s) = 0%nat) /\
  (exists s, terminates w_usable argv_dm0 s 0 /\ closes (trace s) = 1%nat) /\
  (forall argv s c,
     terminates w_usable argv s c -> closes (trace s) <> 0%nat ->
     c = 0 /\ closes (trace s) = 1%nat /\
     argc argv = 2 /\ opens_device w_usable (arg argv 1) /\
     exists k, transient_until w_usable k /\ success (ioctl_res w_usable k) /\
               ioctls (trace s) = S k).
Proof.
  split; [|split].
  - apply (close_only_after_success w_no_path "probe" "/dev/dm-0" 0);
      by_script.
  - apply (close_only_after_success w_usable "probe" "/dev/dm-0" 2);
      by_script.
  - apply (close_only_after_success w_usable "probe" "/dev/dm-0" 2);
      by_script.
Defined.

(** C1, as stated, fails: on the script [w_no_path], whose first probe
    request answers "not connected", the program ends and the trace of
    the run holds no [close] of the handle. *)
Lemma not_connected_close_counterexample :
  opens_device w_no_path "/dev/dm-0" /\
  not_connected (ioctl_res w_no_path 0) /\
  ~ (forall s c, terminates w_no_path argv_dm0 s c ->
       exists r, In (CloseA (handle_of w_no_path "/dev/dm-0") r) (trace s)).
Proof.
  split; [|split]; [by_script..|].
  intros H.
  destruct (H _ 1 (ex_intro _ 20%nat eq_refl)) as [r Hr].
  vm_compute in Hr. intuition discriminate.
Qed.

(** C2: for every script in which the device opens, the first probe
    request is issued; a further request is issued exactly when the one
    before it was issued and failed with EINTR or EAGAIN; a run that ends
    has ended on an answered request that is a success, "not connected"
    or another failure, never on a transient one; each such answer to an
    issued request ends the run with no further request; and while every
    answer is transient the process does not end. *)
Theorem probe_loop_retries_exactly_on_transient
    (w : world) (prog dev : string) :
  opens_device w dev ->
  issued w [prog; dev] 0 /\
  (forall k, issued w [prog; dev] (S k) <->
             issued w [prog; dev] k /\ transient (ioctl_res w k)) /\
  (forall s c, terminates w [prog; dev] s c ->
     exists k, ioctls (trace s) = S k /\ issued w [prog; dev] k /\
               ~ transient (ioctl_res w k) /\
               (success (ioctl_res w k) \/ not_connected (ioctl_res w k) \/
                other_failure (ioctl_res w k))) /\
  (forall k, issued w [prog; dev] k ->
     success (ioctl_res w k) \/ not_connected (ioctl_res w k) \/
     other_failure (ioctl_res w k) ->
     exists s c, terminates w [prog; dev] s c /\ ioctls (trace s) = S k) /\
  ((forall k, transient (ioctl_res w k)) -> diverges w [prog; dev]).
Proof.
  intros O.
  assert (Ends : forall s c, terminates w [prog; dev] s c ->
     exists k, ioctls (trace s) = S k /\ transient_until w k /\
               ~ transient (ioctl_res w k)).
  { intros s c E.
    destruct (first_lasting (ioctl_res w) (ioctls (trace s)))
      as [T|(m & Hm & N & T)].
    - exfalso.
      apply (issued_transient_until w prog dev O) in T.
      apply issued_reaches in T. destruct T as (s1 & R & Hk).
      apply terminates_runs in E.
      destruct (reaches_before_end _ _ _ _ _ _ E R) as [l Hl].
      rewrite Hl, ioctls_app in Hk. lia.
    - destruct (terminates_at w prog dev O m T N) as (s1 & c1 & E1 & H1).
      destruct (terminates_deterministic w _ _ _ _ _ E E1) as [-> ->].
      exists m. auto. }
  split; [|split; [|split; [|split]]].
  - apply (issued_transient_until w prog dev O). intros i Hi. lia.
  - intros k. split.
    + intros I. apply (issued_transient_until w prog dev O) in I. split.
      * apply (issued_transient_until w prog dev O). intros i Hi.
        apply I. lia.
      * apply I. lia.
    + intros [I T]. apply (issued_transient_until w prog dev O).
      apply (issued_transient_until w prog dev O) in I.
      intros i Hi. destruct (Nat.eq_dec i k) as [->|]; [exact T|].
      apply I. lia.
  - intros s c E. destruct (Ends s c E) as (k & Hk & T & N).
    exists k. repeat split; auto.
    + now apply (issued_transient_until w prog dev O).
    + now apply lasting_cases.
  - intros k I A. apply (issued_transient_until w prog dev O) in I.
    apply lasting_cases in A.
    apply (terminates_at w prog dev O k I A).
  - intros T. apply diverges_runs. intros s c R.
    apply terminates_runs in R.
    destruct (Ends s c R) as (k & _ & _ & N). apply N, T.
Qed.

Lemma probe_loop_retries_exactly_on_transient_witness :
  opens_device w_usable "/dev/dm-0" /\
  issued w_usable argv_dm0 0 /\
  (forall k, issued w_usable argv_dm0 (S k) <->
             issued w_usable argv_dm0 k /\ transient (ioctl_res w_usable k)) /\
  (forall s c, terminates w_usable argv_dm0 s c ->
     exists k, ioctls (trace s) = S k /\ issued w_usable argv_dm0 k /\
               ~ transient (ioctl_res w_usable k) /\
               (success (ioctl_res w_usable k) \/
                not_connected (ioctl_res w_usable k) \/
                other_failure (ioctl_res w_usable k))) /\
  (forall k, issued w_usable argv_dm0 k ->
     success (ioctl_res w_usable k) \/ not_connected (ioctl_res w_usable k) \/
     other_failure (ioctl_res w_usable k) ->
     exists s c, terminates w_usable argv_dm0 s c /\
                 ioctls (trace s) = S k) /\
  ((forall k, transient (ioctl_res w_usable k)) -> diverges w_usable argv_dm0).
Proof.
  assert (O : opens_device w_usable "/dev/dm-0") by by_script.
  split; [exact O|].
  exact (probe_loop_retries_exactly_on_transient w_usable "probe" "/dev/dm-0" O).
Defined.

(** C3: if the probe request fails with EINTR or EAGAIN [n] times and then
    succeeds, the program issues exactly [n + 1] requests, ends with exit
    status 0, and its standard output is the one line [probing]: printed
    once, and no [no usable paths]. *)
Theorem retries_then_success (w : world) (prog dev : string) (n : nat) :
  opens_device w dev ->
  transient_until w n ->
  success (ioctl_res w n) ->
  exists s,
    terminates w [prog; dev] s 0 /\
    ioctls (trace s) = S n /\
    output stdout (trace s) = ["probing
"] /\
    count_occ string_dec (output stdout (trace s)) "probing
" = 1%nat /\
    ~ In "no usable paths
" (output stdout (trace s)).
Proof.
  intros O T A. eexists. split; [|split; [|split]].
  - apply (terminates_success w prog dev O n T A).
  - tally.
  - tally.
  - replace (output stdout _) with ["probing
"] by (symmetry; tally).
    split; [reflexivity|]. simpl. intros [H|[]]. discriminate.
Qed.

Lemma retries_then_success_witness :
  exists s,
    terminates w_usable argv_dm0 s 0 /\
    ioctls (trace s) = 3%nat /\
    output stdout (trace s) = ["probing
"] /\
    count_occ string_dec (output stdout (trace s)) "probing
" = 1%nat /\
    ~ In "no usable paths
" (output stdout (trace s)).
Proof.
  apply (retries_then_success w_usable "probe" "/dev/dm-0" 2); by_script.
Defined.

(** C4: if the first answer that is not transient is "not connected", the
    standard output is [probing] followed by [no usable paths] and the
    exit status is 1, not zero; if it is a success, the standard output is
    [probing] alone. *)
Theorem no_usable_paths_report (w : world) (prog dev : string) (n : nat) :
  opens_device w dev ->
  transient_until w n ->
  (not_connected (ioctl_res w n) ->
   exists s,
     terminates w [prog; dev] s 1 /\
     output stdout (trace s) = ["probing
"; "no usable paths
"]) /\
  (success (ioctl_res w n) ->
   exists s,
     terminates w [prog; dev] s 0 /\
     output stdout (trace s) = ["probing
"] /\
     output stderr (trace s) = []).
Proof.
  intros O T. split; intros A.
  - eexists. split.
    + apply (terminates_not_connected w prog dev O n T A).
    + tally.
  - eexists. split; [|split].
    + apply (terminates_success w prog dev O n T A).
    + tally.
    + tally.
Qed.

Lemma no_usable_paths_report_witness :
  (exists s,
     terminates w_lost argv_dm0 s 1 /\
     output stdout (trace s) = ["probing
"; "no usable paths
"]) /\
  (exists s,
     terminates w_usable argv_dm0 s 0 /\
     output stdout (trace s) = ["probing
"] /\
     output stderr (trace s) = []).
Proof.
  split.
  - apply (no_usable_paths_report w_lost "probe" "/dev/dm-0" 1); by_script.
  - apply (no_usable_paths_report w_usable "probe" "/dev/dm-0" 2); by_script.
Defined.

(** C5: if the first answer that is not transient is a failure with a
    number other than ENOTCONN, EINTR and EAGAIN, the program ends with
    exit status 1, not zero; the error stream holds the one line
    [ioctl failed: ] with the error text of that number; the standard
    output holds [probing] alone, so no [no usable paths]; and [close]
    has not been called. *)
Theorem other_failure_report (w : world) (prog dev : string) (n : nat) :
  opens_device w dev ->
  transient_until w n ->
  other_failure (ioctl_res w n) ->
  exists s,
    terminates w [prog; dev] s 1 /\
    output stderr (trace s) =
      [("ioctl failed: " ++ strerror w (err (ioctl_res w n)) ++ "
")%string] /\
    output stdout (trace s) = ["probing
"] /\
    ~ In "no usable paths
" (output stdout (trace s)) /\
    closes (trace s) = 0%nat.
Proof.
  intros O T A. eexists. split; [|split; [|split; [|split]]].
  - apply (terminates_other w prog dev O n T A).
  - tally.
  - tally.
  - replace (output stdout _) with ["probing
"] by (symmetry; tally).
    simpl. intros [H|[]]. discriminate.
  - tally.
Qed.

Lemma other_failure_report_witness :
  exists s,
    terminates w_denied argv_dm0 s 1 /\
    output stderr (trace s) = ["ioctl failed: Permission denied
"] /\
    output stdout (trace s) = ["probing
"] /\
    ~ In "no usable paths
" (output stdout (trace s)) /\
    closes (trace s) = 0%nat.
Proof.
  apply (other_failure_report w_denied "probe" "/dev/dm-0" 1); by_script.
Defined.

(** C6: whenever the argument count is not 2 (the program name and one
    positional argument), the program ends with exit status 1, not zero;
    the error stream holds the one line [Usage: ] with [argv[0]] and
    [ <dm-path>]; and [open] has not been called. *)
Theorem usage_error (w : world) (argv : list string) :
  List.length argv <> 2%nat ->
  exists s,
    terminates w argv s 1 /\
    output stderr (trace s) =
      [("Usage: " ++ arg argv 0 ++ " <dm-path>
")%string] /\
    opens (trace s) = 0%nat /\
    trace s = [PutA stderr ("Usage: " ++ arg argv 0 ++ " <dm-path>
")%string].
Proof.
  intros H. eexists. split; [|split; [|split]].
  - apply terminates_runs. apply runs_main_usage.
    + unfold argc. lia.
    + split; reflexivity.
  - reflexivity.
  - reflexivity.
  - reflexivity.
Qed.

Lemma usage_error_witness :
  exists s,
    terminates w_usable ["probe"; "/dev/dm-0"; "/dev/dm-1"] s 1 /\
    output stderr (trace s) = ["Usage: probe <dm-path>
"] /\
    opens (trace s) = 0%nat /\
    trace s = [PutA stderr "Usage: probe <dm-path>
"].
Proof.
  apply (usage_error w_usable ["probe"; "/dev/dm-0"; "/dev/dm-1"]).
  simpl. lia.
Defined.

(** C7: whenever [open] of the named device fails, the program ends with
    exit status 1, not zero; the error stream holds the one line
    [open of ], the path, [ failed: ] and the error text of the number
    [open] left in [errno]; and no probe request has been issued. *)
Theorem open_failure_report (w : world) (prog dev : string) :
  ret (open_res w dev O_RDONLY) < 0 ->
  exists s,
    terminates w [prog; dev] s 1 /\
    output stderr (trace s) =
      [("open of " ++ dev ++ " failed: "
        ++ strerror w (err (open_res w dev O_RDONLY)) ++ "
")%string] /\
    ioctls (trace s) = 0%nat.
Proof.
  intros H. eexists. split; [|split].
  - apply terminates_runs. apply runs_main_open_failed; [exact H|].
    split; reflexivity.
  - reflexivity.
  - reflexivity.
Qed.

Lemma open_failure_report_witness :
  exists s,
    terminates w_missing argv_dm0 s 1 /\
    output stderr (trace s) =
      ["open of /dev/dm-0 failed: No such file or directory
"] /\
    ioctls (trace s) = 0%nat.
Proof.
  apply (open_failure_report w_missing "probe" "/dev/dm-0"). reflexivity.
Defined.

(** C8: on any two scripts in which the device opens and every probe
    request succeeds, the program ends with exit status 0 both times,
    with the same standard output and the same error stream; and a run on
    a given script has one end only. *)
Theorem usable_runs_agree (w1 w2 : world) (prog dev : string) :
  opens_device w1 dev -> (forall i, success (ioctl_res w1 i)) ->
  opens_device w2 dev -> (forall i, success (ioctl_res w2 i)) ->
  exists s1 s2,
    terminates w1 [prog; dev] s1 0 /\
    terminates w2 [prog; dev] s2 0 /\
    output stdout (trace s1) = output stdout (trace s2) /\
    output stderr (trace s1) = output stderr (trace s2) /\
    output stdout (trace s1) = ["probing
"] /\
    (forall s c, terminates w1 [prog; dev] s c -> s = s1 /\ c = 0) /\
    (forall s c, terminates w2 [prog; dev] s c -> s = s2 /\ c = 0).
Proof.
  intros O1 A1 O2 A2.
  assert (T1 : transient_until w1 0) by (intros i Hi; lia).
  assert (T2 : transient_until w2 0) by (intros i Hi; lia).
  pose proof (terminates_success w1 prog dev O1 0 T1 (A1 0%nat)) as E1.
  pose proof (terminates_success w2 prog dev O2 0 T2 (A2 0%nat)) as E2.
  do 2 eexists. split; [exact E1|]. split; [exact E2|].
  split; [|split; [|split; [|split]]].
  - reflexivity.
  - reflexivity.
  - reflexivity.
  - intros s c E. apply (terminates_deterministic w1 _ _ _ _ _ E E1).
  - intros s c E. apply (terminates_deterministic w2 _ _ _ _ _ E E2).
Qed.

Lemma usable_runs_agree_witness :
  exists s1 s2,
    terminates w_odd argv_dm0 s1 0 /\
    terminates (with_close w_odd (ok 0)) argv_dm0 s2 0 /\
    output stdout (trace s1) = output stdout (trace s2) /\
    output stderr (trace s1) = output stderr (trace s2) /\
    output stdout (trace s1) = ["probing
"] /\
    (forall s c, terminates w_odd argv_dm0 s c -> s = s1 /\ c = 0) /\
    (forall s c, terminates (with_close w_odd (ok 0)) argv_dm0 s c ->
                 s = s2 /\ c = 0).
Proof.
  apply (usable_runs_agree w_odd (with_close w_odd (ok 0)) "probe" "/dev/dm-0").
  - by_script.
  - intros i. unfold success. apply Z.leb_le.
    destruct i as [|i]; [reflexivity|]. destruct i; reflexivity.
  - by_script.
  - intros i. unfold success. apply Z.leb_le.
    destruct i as [|i]; [reflexivity|]. destruct i; reflexivity.
Defined.

(** C9: whatever value that is not negative the probe request returns,
    zero or not, after any number of transient failures, the loop is left:
    the next action of the program is [close] of the handle, it is the
    last one, and the exit status is 0. *)
Theorem non_negative_is_success
    (w : world) (prog dev : string) (n : nat) (v : Z) :
  opens_device w dev ->
  transient_until w n ->
  ret (ioctl_res w n) = v ->
  0 <= v ->
  exists s tr,
    terminates w [prog; dev] s 0 /\
    trace s = tr ++ [IoctlA (handle_of w dev) DM_MPATH_PROBE_PATHS v;
                     CloseA (handle_of w dev) (ret (close_res w))] /\
    ioctls tr = n /\
    closes tr = 0%nat.
Proof.
  intros O T R V.
  assert (A : success (ioctl_res w n)) by (unfold success; lia).
  exists (closed w (handle_of w dev) (answered w dev n)).
  exists (trace (retried w (handle_of w dev) n (start w dev))).
  split; [|split; [|split]].
  - apply (terminates_success w prog dev O n T A).
  - unfold answered, closed, probed, returned; cbn [trace].
    rewrite ioctls_retried. cbn [start entered put returned trace ioctls
      initial app filter is_ioctl List.length Nat.add]. rewrite R.
    now rewrite <- app_assoc.
  - tally.
  - tally.
Qed.

Lemma non_negative_is_success_witness :
  exists s tr,
    terminates w_odd argv_dm0 s 0 /\
    trace s = tr ++ [IoctlA 5 DM_MPATH_PROBE_PATHS 7; CloseA 5 (-1)] /\
    ioctls tr = 0%nat /\
    closes tr = 0%nat.
Proof.
  apply (non_negative_is_success w_odd "probe" "/dev/dm-0" 0 7); by_script.
Defined.

(** C10: on the success path the answer of [close] is not looked at:
    whatever [close] returns, failure included, the program ends with
    exit status 0 right after it. *)
Theorem close_result_ignored
    (w : world) (prog dev : string) (n : nat) (c : sysret) :
  opens_device w dev ->
  transient_until w n ->
  success (ioctl_res w n) ->
  exists s tr,
    terminates (with_close w c) [prog; dev] s 0 /\
    trace s = tr ++ [CloseA (handle_of w dev) (ret c)].
Proof.
  intros O T A.
  do 2 eexists. split.
  - apply (terminates_success (with_close w c) prog dev O n T A).
  - unfold closed, returned; cbn [trace with_close close_res handle_of open_res].
    reflexivity.
Qed.

Lemma close_result_ignored_witness :
  exists s tr,
    terminates (with_close w_usable (failed 5)) argv_dm0 s 0 /\
    trace s = tr ++ [CloseA 3 (-1)].
Proof.
  apply (close_result_ignored w_usable "probe" "/dev/dm-0" 2 (failed 5));
    by_script.
Defined.

(** * Further properties of the program *)

(** X1: along every run, terminating or not and whatever the arguments
    and the script, after any number of steps: every [open] so far was of
    [argv[1]] for reading, there was at most one, and every [ioctl] and
    [close] so far was on the handle that [open] returned, which is not
    negative, every [ioctl] carrying the request
    [DM_MPATH_PROBE_PATHS]. *)
Theorem calls_follow_the_handle (w : world) (argv : list string) (n : nat) :
  Forall (disciplined w argv) (trace (fst (run n w initial (main argv)))) /\
  (opens (trace (fst (run n w initial (main argv)))) <= 1)%nat.
Proof.
  split.
  - apply phase_disciplined, run_phase.
  - eapply phase_opens, run_phase.
Qed.

(** X2: the handle is not used after it is released.  Along every run,
    after any number of steps, either [close] has not been called, or it
    has been called once, on the handle, and it is the last of the calls
    on the device so far: no [ioctl], [close] or [open] follows it. *)
Theorem handle_unused_after_close
    (w : world) (argv : list string) (n : nat) :
  closes (trace (fst (run n w initial (main argv)))) = 0%nat \/
  exists calls r,
    device_calls (trace (fst (run n w initial (main argv))))
    = calls ++ [CloseA (handle_of w (arg argv 1)) r] /\
    closes calls = 0%nat.
Proof.
  destruct (phase_closes w argv _ (run_phase w argv n))
    as [H|(tr & r & E & H)]; [now left|right].
  exists (device_calls tr), r. split.
  - rewrite E. unfold device_calls. now rewrite filter_app.
  - now rewrite closes_device_calls.
Qed.

(** X3: the device is opened before it is used.  Along every run, once
    an [ioctl] or a [close] has been called, the first of the calls on
    the device is the [open] of [argv[1]] for reading that returned the
    handle. *)
Theorem open_comes_first (w : world) (argv : list string) (n : nat) :
  (0 < ioctls (trace (fst (run n w initial (main argv))))
       + closes (trace (fst (run n w initial (main argv)))))%nat ->
  exists rest,
    device_calls (trace (fst (run n w initial (main argv))))
    = OpenA (arg argv 1) O_RDONLY (handle_of w (arg argv 1)) :: rest.
Proof.
  intros H.
  assert (I : (0 < ioctls (trace (fst (run n w initial (main argv)))))%nat).
  { destruct (phase_closes w argv _ (run_phase w argv n))
      as [C|(tr & r & E & C)]; [lia|].
    destruct (phase_closed_probed w argv _ (run_phase w argv n)); lia. }
  destruct (phase_announced w argv _ (run_phase w argv n) I) as [rest E].
  rewrite E. eexists. reflexivity.
Qed.

Lemma open_comes_first_witness :
  exists rest,
    device_calls (trace (fst (run 12 w_usable initial (main argv_dm0))))
    = OpenA "/dev/dm-0" O_RDONLY 3 :: rest.
Proof.
  apply (open_comes_first w_usable argv_dm0 12).
  vm_compute. lia.
Defined.

(** X4: the exit status tells what was printed.  A run that ends with
    status 0 has printed [probing] and nothing else, nothing on the error
    stream, and has called [close].  Any other run that ends has status
    1, has not called [close], and has printed exactly one diagnostic:
    either one line on the error stream and no [no usable paths], or
    [no usable paths] after [probing] and nothing on the error stream.
    There is no other exit status. *)
Theorem exit_status_tells_output
    (w : world) (argv : list string) (s : state) (c : Z) :
  terminates w argv s c ->
  (c = 0 /\ output stderr (trace s) = [] /\
   output stdout (trace s) = ["probing
"] /\ closes (trace s) = 1%nat) \/
  (c = 1 /\ closes (trace s) = 0%nat /\
   ((exists line, output stderr (trace s) = [line] /\
                  ~ In "no usable paths
" (output stdout (trace s))) \/
    (output stderr (trace s) = [] /\
     output stdout (trace s) = ["probing
"; "no usable paths
"]))).
Proof.
  intros H. apply terminates_ending in H.
  destruct H as [A | A Neg | n A O T N | n A O T N | n A O T N].
  - right. split; [reflexivity|]. split; [reflexivity|]. left.
    eexists. split; [reflexivity|]. simpl. tauto.
  - right. split; [reflexivity|]. split; [reflexivity|]. left.
    eexists. split; [reflexivity|]. simpl. tauto.
  - right. split; [reflexivity|]. split; [tally|]. right.
    split; tally.
  - right. split; [reflexivity|]. split; [tally|]. left.
    eexists. split; [tally|].
    replace (output stdout _) with ["probing
"] by (symmetry; tally).
    simpl. intros [E|[]]. discriminate.
  - left. split; [reflexivity|]. split; [tally|]. split; tally.
Qed.

Lemma exit_status_tells_output_witness :
  exists s,
    terminates w_denied argv_dm0 s 1 /\ closes (trace s) = 0%nat /\
    ((exists line, output stderr (trace s) = [line] /\
                   ~ In "no usable paths
" (output stdout (trace s))) \/
     (output stderr (trace s) = [] /\
      output stdout (trace s) = ["probing
"; "no usable paths
"])).
Proof.
  assert (E : terminates w_denied argv_dm0
                (fst (run 30 w_denied initial (main argv_dm0))) 1)
    by (exists 30%nat; reflexivity).
  eexists. split; [exact E|].
  destruct (exit_status_tells_output _ _ _ _ E) as [[H _]|[_ H]].
  - discriminate H.
  - exact H.
Defined.

(** X5: the program ends with status 0 exactly when it was given one
    argument, the device opened, and some probe request succeeded after
    transient failures only. *)
Theorem exit_zero_iff_probe_succeeded (w : world) (argv : list string) :
  (exists s, terminates w argv s 0) <->
  argc argv = 2 /\ opens_device w (arg argv 1) /\
  exists n, transient_until w n /\ success (ioctl_res w n).
Proof.
  split.
  - intros [s H]. apply terminates_ending in H.
    inversion H; subst. eauto.
  - intros (A & O & n & T & N).
    destruct (argc_two argv A) as (prog & dev & ->).
    eexists. apply (terminates_success w prog dev O n T N).
Qed.

(** X6: the program runs for ever exactly when it was given one
    argument, the device opened, and every probe request fails with
    EINTR or EAGAIN; in every other case it ends. *)
Theorem diverges_iff_transient_for_ever (w : world) (argv : list string) :
  diverges w argv <->
  argc argv = 2 /\ opens_device w (arg argv 1) /\
  forall k, transient (ioctl_res w k).
Proof.
  rewrite diverges_runs. split.
  - intros D.
    destruct (Z.eq_dec (argc argv) 2) as [A|A].
    2: { exfalso. eapply D. apply runs_main_usage; [exact A|].
         split; reflexivity. }
    destruct (argc_two argv A) as (prog & dev & ->).
    destruct (Z_lt_dec (ret (open_res w dev O_RDONLY)) 0) as [Neg|Pos].
    { exfalso. eapply D. apply runs_main_open_failed; [exact Neg|].
      split; reflexivity. }
    assert (O : opens_device w dev) by (unfold opens_device; lia).
    split; [exact A|]. split; [exact O|]. intros k.
    destruct (first_lasting (ioctl_res w) (S k)) as [T|(m & Hm & N & T)].
    + apply T. lia.
    + exfalso.
      destruct (terminates_at w prog dev O m T N) as (s & c & E & _).
      apply terminates_runs in E. exact (D s c E).
  - intros (A & O & T) s c R. apply terminates_runs in R.
    apply terminates_ending in R.
    destruct R as [A' | A' Neg | n _ _ _ N | n _ _ _ N | n _ _ _ N].
    + contradiction.
    + unfold opens_device in O. lia.
    + apply (proj1 (lasting_cases _)) with (2 := T n). auto.
    + apply (proj1 (lasting_cases _)) with (2 := T n). auto.
    + apply (proj1 (lasting_cases _)) with (2 := T n). auto.
Qed.

Lemma lasting_after_transients (w : world) (n k : nat) :
  transient_until w n -> ~ transient (ioctl_res w k) -> (n <= k)%nat.
Proof.
  intros T N. destruct (le_lt_dec n k) as [H|H]; [exact H|].
  exfalso. apply N, T, H.
Qed.

Lemma transient_until_drop (w : world) (n m : nat) :
  transient_until w n ->
  transient_until (drop_answers n w) m <-> transient_until w (n + m).
Proof.
  intros T. split; intros H i Hi.
  - destruct (le_lt_dec n i) as [L|L]; [|now apply T].
    replace i with (n + (i - n))%nat by lia.
    apply (H (i - n)%nat). lia.
  - apply (H (n + i)%nat). lia.
Qed.

(** X7: transient answers change nothing but the number of requests.
    When the device opens and the first [n] answers are transient, the
    program ends on the script exactly when it ends on the script without
    these [n] answers, with the same exit status, the same standard
    output, the same error stream and as many calls of [close], having
    issued [n] more requests. *)
Theorem transient_answers_are_invisible
    (w : world) (prog dev : string) (n : nat) :
  opens_device w dev ->
  transient_until w n ->
  (forall s c, terminates w [prog; dev] s c ->
     exists s', terminates (drop_answers n w) [prog; dev] s' c /\
       output stdout (trace s) = output stdout (trace s') /\
       output stderr (trace s) = output stderr (trace s') /\
       closes (trace s) = closes (trace s') /\
       ioctls (trace s) = (n + ioctls (trace s'))%nat) /\
  (forall s' c, terminates (drop_answers n w) [prog; dev] s' c ->
     exists s, terminates w [prog; dev] s c /\
       output stdout (trace s) = output stdout (trace s') /\
       output stderr (trace s) = output stderr (trace s') /\
       closes (trace s) = closes (trace s') /\
       ioctls (trace s) = (n + ioctls (trace s'))%nat).
Proof.
  intros O T.
  assert (O' : opens_device (drop_answers n w) dev) by exact O.
  split.
  - intros s c H. apply terminates_ending in H.
    destruct H as [A | A Neg | k A _ Tk N | k A _ Tk N | k A _ Tk N].
    + exfalso. now apply A.
    + exfalso. change (ret (open_res w dev O_RDONLY) < 0) in Neg.
      unfold opens_device in O. lia.
    + assert (L : (n <= k)%nat).
      { apply (lasting_after_transients w n k T).
        apply lasting_cases. auto. }
      replace k with (n + (k - n))%nat in * by lia.
      set (m := (k - n)%nat) in *. clearbody m.
      apply (transient_until_drop w n m T) in Tk.
      eexists. split.
      * apply (terminates_not_connected _ prog dev O' m Tk N).
      * cbn [arg nth]. repeat split; tally.
    + assert (L : (n <= k)%nat).
      { apply (lasting_after_transients w n k T).
        apply lasting_cases. auto. }
      replace k with (n + (k - n))%nat in * by lia.
      set (m := (k - n)%nat) in *. clearbody m.
      apply (transient_until_drop w n m T) in Tk.
      eexists. split.
      * apply (terminates_other _ prog dev O' m Tk N).
      * cbn [arg nth]. repeat split; tally.
    + assert (L : (n <= k)%nat).
      { apply (lasting_after_transients w n k T).
        apply lasting_cases. auto. }
      replace k with (n + (k - n))%nat in * by lia.
      set (m := (k - n)%nat) in *. clearbody m.
      apply (transient_until_drop w n m T) in Tk.
      eexists. split.
      * apply (terminates_success _ prog dev O' m Tk N).
      * cbn [arg nth]. repeat split; tally.
  - intros s' c H. apply terminates_ending in H.
    destruct H as [A | A Neg | m A _ Tm N | m A _ Tm N | m A _ Tm N].
    + exfalso. now apply A.
    + exfalso. change (ret (open_res w dev O_RDONLY) < 0) in Neg.
      unfold opens_device in O. lia.
    + apply (transient_until_drop w n m T) in Tm.
      eexists. split.
      * apply (terminates_not_connected w prog dev O (n + m) Tm N).
      * cbn [arg nth]. repeat split; tally.
    + apply (transient_until_drop w n m T) in Tm.
      eexists. split.
      * apply (terminates_other w prog dev O (n + m) Tm N).
      * cbn [arg nth]. repeat split; tally.
    + apply (transient_until_drop w n m T) in Tm.
      eexists. split.
      * apply (terminates_success w prog dev O (n + m) Tm N).
      * cbn [arg nth]. repeat split; tally.
Qed.

Lemma transient_answers_are_invisible_witness :
  (forall s c, terminates w_usable argv_dm0 s c ->
     exists s', terminates (drop_answers 2 w_usable) argv_dm0 s' c /\
       output stdout (trace s) = output stdout (trace s') /\
       output stderr (trace s) = output stderr (trace s') /\
       closes (trace s) = closes (trace s') /\
       ioctls (trace s) = (2 + ioctls (trace s'))%nat) /\
  (forall s' c, terminates (drop_answers 2 w_usable) argv_dm0 s' c ->
     exists s, terminates w_usable argv_dm0 s c /\
       output stdout (trace s) = output stdout (trace s') /\
       output stderr (trace s) = output stderr (trace s') /\
       closes (trace s) = closes (trace s') /\
       ioctls (trace s) = (2 + ioctls (trace s'))%nat).
Proof.
  apply (transient_answers_are_invisible w_usable "probe" "/dev/dm-0" 2);
    by_script.
Defined.

(** X8: [no usable paths] is no false alarm: some run ends having printed
    it exactly when the program was given one argument, the device
    opened, and a probe request failed with ENOTCONN after transient
    failures only. *)
Theorem no_usable_paths_iff_not_connected
    (w : world) (argv : list string) :
  (exists s c, terminates w argv s c /\
               In "no usable paths
" (output stdout (trace s))) <->
  argc argv = 2 /\ opens_device w (arg argv 1) /\
  exists n, transient_until w n /\ not_connected (ioctl_res w n).
Proof.
  split.
  - intros (s & c & H & P). apply terminates_ending in H.
    destruct H as [A | A Neg | n A O T N | n A O T N | n A O T N].
    + destruct P.
    + destruct P.
    + eauto.
    + exfalso. revert P.
      replace (output stdout _) with ["probing
"] by (symmetry; tally).
      simpl. intros [E|[]]. discriminate.
    + exfalso. revert P.
      replace (output stdout _) with ["probing
"] by (symmetry; tally).
      simpl. intros [E|[]]. discriminate.
  - intros (A & O & n & T & N).
    destruct (argc_two argv A) as (prog & dev & ->).
    do 2 eexists. split.
    + apply (terminates_not_connected w prog dev O n T N).
    + replace (output stdout _) with ["probing
"; "no usable paths
"] by (symmetry; tally).
      simpl. auto.
Qed.
